(** * enhanced_discord.js: command dispatch for a chat bot

    A shallow embedding of [src/nodejs/enhanced_discord.js] (class [Command],
    class [Bot] and [defaultErrorHandler]) and the properties of its
    tokenizer, its command constructor and its dispatcher.

    Conventions of the embedding:
    - a JavaScript string is a [string]; the loops of the source only ever
      compare characters with the ASCII characters space, double quote,
      backslash, comma and the two parentheses;
    - a JavaScript value used as a condition is modelled by its truthiness:
      a string is truthy when it is not empty, [undefined] is [None];
    - a call that may throw has a [completion]; user callbacks (checks,
      command functions, error handlers) are arbitrary stateful functions
      over a world they may change; an awaited call is fulfilled or
      rejected, and one that never settles is not modelled. *)

From Stdlib Require Import List String Ascii Bool Arith Lia Sorted.
Import ListNotations.
Open Scope string_scope.
Open Scope list_scope.

(* ================================================================= *)
(** ** JavaScript strings *)

Module JS.

(** The characters the source tests for. *)
Definition dquote : ascii := ascii_of_nat 34.
Definition bslash : ascii := ascii_of_nat 92.
Definition space : ascii := ascii_of_nat 32.
Definition comma : ascii := ascii_of_nat 44.
Definition lparen : ascii := ascii_of_nat 40.
Definition rparen : ascii := ascii_of_nat 41.

(** One-character strings, to write inputs that hold a quote or a backslash. *)
Definition chr (c : ascii) : string := String c EmptyString.
Definition DQ : string := chr dquote.
Definition BS : string := chr bslash.

(** Truthiness of a string: [if (s)] holds when [s] is not empty. *)
Definition truthy (s : string) : bool :=
  match s with
  | EmptyString => false
  | String _ _ => true
  end.

(** [s + c]: a character appended to a string. *)
Definition push_char (s : string) (c : ascii) : string := s ++ chr c.

(** [s.includes(c)] for a one-character pattern. *)
Fixpoint includes (s : string) (c : ascii) : bool :=
  match s with
  | EmptyString => false
  | String d rest => Ascii.eqb d c || includes rest c
  end.

(** [s.split(c)] for a one-character separator: never the empty array (the
    first branch of the inner [match] is there for totality only). *)
Fixpoint split (s : string) (c : ascii) : list string :=
  match s with
  | EmptyString => [EmptyString]
  | String d rest =>
      if Ascii.eqb d c then EmptyString :: split rest c
      else match split rest c with
           | [] => [chr d]
           | w :: ws => String d w :: ws
           end
  end.

(** [arr.join(sep)]. *)
Fixpoint join (arr : list string) (sep : string) : string :=
  match arr with
  | [] => EmptyString
  | [w] => w
  | w :: ws => w ++ sep ++ join ws sep
  end.

(** [arr.slice(1)] on an array and [arr[0]]. *)
Definition slice1 {A} (arr : list A) : list A := tl arr.
Definition first (arr : list string) : string := hd EmptyString arr.

(** [s.slice(from, to)] and [s.slice(from)] for indexes that are not negative. *)
Definition slice (s : string) (from to : nat) : string :=
  substring from (to - from) s.
Definition slice_from (s : string) (from : nat) : string :=
  substring from (String.length s - from) s.

(** [s.startsWith(p)]. *)
Definition startsWith (s p : string) : bool := String.prefix p s.

(** [s.replace(p, EmptyString)] for a string pattern [p]: the first occurrence
    of [p] in [s] is removed, and [s] is unchanged when there is none. *)
Fixpoint remove_first (s p : string) : string :=
  if String.prefix p s then slice_from s (String.length p)
  else match s with
       | EmptyString => EmptyString
       | String d rest => String d (remove_first rest p)
       end.

(** [s.replace(/c/g, EmptyString)] and [s.replace(/c/g, d)] for a
    one-character regular expression. *)
Fixpoint remove_all (s : string) (c : ascii) : string :=
  match s with
  | EmptyString => EmptyString
  | String d rest =>
      if Ascii.eqb d c then remove_all rest c else String d (remove_all rest c)
  end.

Fixpoint replace_all (s : string) (c d : ascii) : string :=
  match s with
  | EmptyString => EmptyString
  | String e rest =>
      String (if Ascii.eqb e c then d else e) (replace_all rest c d)
  end.

End JS.

(* ================================================================= *)
(** ** The tokenizer: [Bot._parseArgs] (lines 184-226) *)

Module Tokenizer.
Import JS.

(** The variables of the loop: [argArr], [buffer], [inQuote], [escaped] and
    [ready], all declared before the loop and updated in place. *)
Record vars : Type := Vars
  { argArr : list string;
    buffer : string;
    inQuote : bool;
    escaped : bool;
    ready : bool }.

Definition initial : vars :=
  {| argArr := []; buffer := EmptyString;
     inQuote := false; escaped := false; ready := false |}.

(** Lines 192-213: the chain of [if]/[else if] on the current character. *)
Definition classify (v : vars) (char : ascii) : vars :=
  if escaped v then
    Vars (argArr v) (push_char (buffer v) char) (inQuote v) false (ready v)
  else if Ascii.eqb char dquote then
    if inQuote v then Vars (argArr v) (buffer v) false (escaped v) true
    else Vars (argArr v) (buffer v) true (escaped v) (ready v)
  else if Ascii.eqb char space && negb (inQuote v) then
    Vars (argArr v) (buffer v) (inQuote v) (escaped v) true
  else if Ascii.eqb char bslash then
    Vars (argArr v) (buffer v) (inQuote v) true (ready v)
  else
    Vars (argArr v) (push_char (buffer v) char) (inQuote v) (escaped v) (ready v).

(** Lines 214-220: the two [if]s that close the body of the loop. *)
Definition flush (v : vars) : vars :=
  let v1 :=
    if ready v && truthy (buffer v)
    then Vars (argArr v ++ [buffer v]) (buffer v) (inQuote v) (escaped v) (ready v)
    else v in
  if ready v1
  then Vars (argArr v1) EmptyString (inQuote v1) (escaped v1) false
  else v1.

(** One turn of [for (let char of argStr)]. *)
Definition step (v : vars) (char : ascii) : vars := flush (classify v char).

(** The whole loop, from any values of the variables. *)
Fixpoint scan (v : vars) (argStr : string) : vars :=
  match argStr with
  | EmptyString => v
  | String char rest => scan (step v char) rest
  end.

(** Lines 222-225: the last buffer is pushed when it is not empty. *)
Definition finish (v : vars) : list string :=
  if truthy (buffer v) then argArr v ++ [buffer v] else argArr v.

(** The tokenizer on the remainder of the command line (lines 186-225). *)
Definition tokenize (argStr : string) : list string :=
  finish (scan initial argStr).

(** Line 185: the remainder is what follows the first space of the content. *)
Definition remainder (str : string) : string :=
  join (slice1 (split str space)) (chr space).

End Tokenizer.

(* ================================================================= *)
(** ** Calls that may throw *)

Module Eff.

(** A thrown error object: its [name] and its [message]. *)
Record Error : Type := MkError
  { error_name : string;
    error_message : string }.

Definition TypeError (message : string) : Error := MkError "TypeError" message.

(** How a call ends: it returns a value or it throws. An asynchronous call
    that is awaited ends the same two ways (fulfilled or rejected). *)
Inductive completion (A : Type) : Type :=
| Normal (a : A)
| Throw (error : Error).
Arguments Normal {A} a.
Arguments Throw {A} error.

(** A computation over a world that user code may change. *)
Definition eff (World A : Type) : Type := World -> World * completion A.

Section Monad.
Context {World : Type}.

Definition ret {A} (a : A) : eff World A := fun w => (w, Normal a).

Definition throw {A} (error : Error) : eff World A := fun w => (w, Throw error).

Definition bind {A B} (f : eff World A) (g : A -> eff World B) : eff World B :=
  fun w =>
    match f w with
    | (w1, Normal a) => g a w1
    | (w1, Throw error) => (w1, Throw error)
    end.

(** [try { body } catch (error) { handler }]. *)
Definition try_catch {A} (body : eff World A) (handler : Error -> eff World A)
  : eff World A :=
  fun w =>
    match body w with
    | (w1, Normal a) => (w1, Normal a)
    | (w1, Throw error) => handler error w1
    end.

End Monad.

End Eff.

Notation "x <- f ;; g" := (Eff.bind f (fun x => g))
  (at level 61, f at next level, right associativity).

(* ================================================================= *)
(** ** Messages and function objects *)

(** What the module and its example read of a [Discord.Message]. *)
Record Author : Type := { bot : bool; id : string }.
Record Guild : Type := { ownerID : string }.
Record Message : Type :=
  { author : Author;
    content : string;
    guild : option Guild }.

(** A check is called with the message; the truthiness of what it returns
    is all the module looks at. *)
Definition Check (World : Type) : Type := Message -> Eff.eff World bool.

(** An error handler is called with the message and the error. *)
Definition ErrorHandler (World : Type) : Type :=
  Message -> Eff.Error -> Eff.eff World unit.

Module Function.

(** A command function: its [name] property, its source text as
    [toString()] gives it, and what a call [f(message, ...args)] does. *)
Record t (World : Type) : Type := Make
  { name : string;
    toString : string;
    call : Message -> list string -> Eff.eff World unit }.
Arguments Make {World} name toString call.
Arguments name {World} _.
Arguments toString {World} _.
Arguments call {World} _ _ _.

(** [f.bind(thisArg)]: the bound function is named after its target, with
    the word [bound] and a space before the name; it has no source text of
    its own; a call of it calls the target with the same arguments. *)
Definition bind {World : Type} (f : t World) : t World :=
  Make ("bound " ++ name f) "function () { [native code] }" (call f).

End Function.

(** Lines 11-13. *)
Definition defaultErrorHandler {World : Type} : ErrorHandler World :=
  fun message error => Eff.throw error.

(* ================================================================= *)
(** ** class Command (lines 15-85) *)

Module Command.
Import JS Eff.

Record t (World : Type) : Type := Make
  { name : string;
    usage : string;
    checks : list (Check World);
    commandFunction : Function.t World }.
Arguments Make {World} name usage checks commandFunction.
Arguments name {World} _.
Arguments usage {World} _.
Arguments checks {World} _.
Arguments commandFunction {World} _.

(** Lines 71-79: [start] and [stop] after the loop over the indexes of
    [string]; [charIndex] is the index of the first character of [rest]. *)
Fixpoint find_parens (rest : string) (charIndex start stop : nat) : nat * nat :=
  match rest with
  | EmptyString => (start, stop)
  | String c rest' =>
      let start1 :=
        if Nat.eqb start 0 && Ascii.eqb c lparen then charIndex else start in
      if negb (Nat.eqb start1 0) && Ascii.eqb c rparen then (start1, charIndex)
      else find_parens rest' (S charIndex) start1 stop
  end.

(** Lines 70-83, on [source], the text [funct.toString()] (the variable
    [string] of the code). *)
Definition parse_signature (source : string) : string :=
  let '(start, stop) := find_parens source 0 0 0 in
  let args :=
    replace_all (remove_all (slice source (start + 1) stop) space) comma space in
  slice_from args 1.

(** Lines 68-84. *)
Definition _parseArgs {World} (funct : Function.t World) : string :=
  parse_signature (Function.toString funct).

(** Lines 24-38. An argument left out or [undefined] is [None]. *)
Definition constructor {World}
    (commandFunction : option (Function.t World))
    (name usage : option string)
    (checks : option (list (Check World))) : completion (t World) :=
  match commandFunction with
  | None => Throw (TypeError "A function must be given to the command")
  | Some f =>
      let name1 :=
        match name with
        | None => Function.name f
        | Some n =>
            if negb (truthy n) || includes n space then Function.name f else n
        end in
      let usage1 :=
        match usage with
        | None => _parseArgs f
        | Some u => if negb (truthy u) then _parseArgs f else u
        end in
      Normal (Make name1 usage1
                (match checks with Some cs => cs | None => [] end) f)
  end.

(** Lines 44-48: every argument of the call is pushed, in order. *)
Definition addCheck {World} (this : t World) (arguments : list (Check World))
  : t World :=
  Make (name this) (usage this) (checks this ++ arguments) (commandFunction this).

(** Lines 56-59, from any point of the list of checks. *)
Fixpoint performChecks_from {World} (checks : list (Check World))
    (message : Message) : eff World bool :=
  match checks with
  | [] => ret true
  | check :: rest =>
      passed <- check message ;;
      if negb passed then ret false else performChecks_from rest message
  end.

Definition performChecks {World} (this : t World) (message : Message)
  : eff World bool :=
  performChecks_from (checks this) message.

End Command.

(* ================================================================= *)
(** ** class Bot (lines 91-227) *)

Module Bot.
Import JS Eff.

Record t (World : Type) : Type := Make
  { errorHandler : ErrorHandler World;
    commands : list (Command.t World);
    checks : list (Check World);
    prefix : string }.
Arguments Make {World} errorHandler commands checks prefix.
Arguments errorHandler {World} _.
Arguments commands {World} _.
Arguments checks {World} _.
Arguments prefix {World} _.

(** The options the constructor reads; the others go to the chat client. *)
Record Options (World : Type) : Type := MakeOptions
  { opt_errorHandler : option (ErrorHandler World);
    opt_commands : option (list (Command.t World));
    opt_checks : option (list (Check World));
    opt_prefix : option string }.
Arguments MakeOptions {World} _ _ _ _.
Arguments opt_errorHandler {World} _.
Arguments opt_commands {World} _.
Arguments opt_checks {World} _.
Arguments opt_prefix {World} _.

(** Lines 96-106. *)
Definition constructor {World} (options : Options World) : completion (t World) :=
  let bad_prefix :=
    match opt_prefix options with
    | None => true
    | Some p => negb (truthy p) || includes p space
    end in
  if bad_prefix
  then Throw (TypeError "The bot prefix can't contain a space and must be defined")
  else
    Normal (Make
      (match opt_errorHandler options with Some h => h | None => defaultErrorHandler end)
      (match opt_commands options with Some cs => cs | None => [] end)
      (match opt_checks options with Some cs => cs | None => [] end)
      (match opt_prefix options with Some p => p | None => EmptyString end)).

(** Lines 125-129 and 135-139. *)
Definition addCheck {World} (this : t World) (arguments : list (Check World))
  : t World :=
  Make (errorHandler this) (commands this) (checks this ++ arguments) (prefix this).

Definition addCommand {World} (this : t World)
    (arguments : list (Command.t World)) : t World :=
  Make (errorHandler this) (commands this ++ arguments) (checks this) (prefix this).

(** Lines 184-226. *)
Definition _parseArgs (str : string) : list string :=
  Tokenizer.tokenize (Tokenizer.remainder str).

(** Line 159: the verb. *)
Definition verb (prefix content : string) : string :=
  remove_first (first (split content space)) prefix.

Section Dispatch.
Context {World : Type}.
Variable this : t World.
Variable message : Message.

(** Lines 168-173: one invocation, with its [try]/[catch]. *)
Definition invoke (command : Command.t World) (args : list string)
  : eff World unit :=
  try_catch
    (Function.call (Command.commandFunction command) message args)
    (fun error => errorHandler this message error).

(** Lines 167-174: the body of the loop over the commands. [&&] evaluates
    [performChecks] only when the names are equal. *)
Definition dispatch_to (command : Command.t World)
    (name : string) (args : list string) : eff World unit :=
  matched <- (if String.eqb (Command.name command) name
              then Command.performChecks command message
              else ret false) ;;
  if matched then invoke command args else ret tt.

(** Lines 166-175: the loop over the commands, from any point of the
    list. Nothing leaves the loop but a thrown error. *)
Fixpoint command_loop (commands : list (Command.t World))
    (name : string) (args : list string) : eff World unit :=
  match commands with
  | [] => ret tt
  | command :: rest =>
      _ <- dispatch_to command name args ;;
      command_loop rest name args
  end.

(** Lines 162-164: the loop over the global checks, from any point of the
    list; [return] leaves the handler, [after] is the rest of its body. *)
Fixpoint global_checks (checks : list (Check World))
    (after : eff World unit) : eff World unit :=
  match checks with
  | [] => after
  | check :: rest =>
      passed <- check message ;;
      if negb passed then ret tt else global_checks rest after
  end.

(** Lines 158-176. *)
Definition _commandHandler : eff World unit :=
  let name := verb (prefix this) (content message) in
  let args := _parseArgs (content message) in
  global_checks (checks this) (command_loop (commands this) name args).

(** Lines 146-150. *)
Definition on_message : eff World unit :=
  if negb (bot (author message)) && startsWith (content message) (prefix this)
  then _commandHandler
  else ret tt.

End Dispatch.

End Bot.

(* ================================================================= *)
(** ** The example script of the repository *)

(** The bot set up after the module in the source file: its checks, its
    command functions and its error handler. Its world is the channel: the
    texts sent so far, oldest first. *)

Module Example.
Import JS Eff.

Definition World : Type := list string.

(** [msg.channel.send(text)]. *)
Definition send (text : string) : eff World unit :=
  fun w => (w ++ [text], Normal tt).

(** [new PermissionError()]. *)
Definition PermissionError : Error := MkError "PermissionError" EmptyString.

(** [customErrorHandler]: for a [PermissionError] it calls [error.message],
    which is a string and no function, so the call throws a [TypeError];
    for any other error it does nothing. *)
Definition customErrorHandler : ErrorHandler World :=
  fun message error =>
    if String.eqb (error_name error) "PermissionError"
    then throw (TypeError "error.message is not a function")
    else ret tt.

(** [isGuildOwner]. *)
Definition isGuildOwner : Check World :=
  fun msg =>
    match guild msg with
    | Some g =>
        if String.eqb (id (author msg)) (ownerID g) then ret true
        else throw PermissionError
    | None => throw PermissionError
    end.

Definition hello_source : string :=
  "async function hello (msg) {
    await msg.channel.send('Hii');
}".

Definition hello : Function.t World :=
  Function.Make "hello" hello_source (fun msg _ => send "Hii").

Definition hidden_source : string :=
  "async function hidden(msg, arg1){
	if (!arg1) arg1 = 'Nothing';
    await msg.channel.send(`The owner : ${arg1}`);
}".

Definition hidden : Function.t World :=
  Function.Make "hidden" hidden_source
    (fun msg args =>
       let arg1 :=
         match args with
         | arg1 :: _ => if truthy arg1 then arg1 else "Nothing"
         | [] => "Nothing"
         end in
       send ("The owner : " ++ arg1)).

(** [new Command(hello)], and [new Command(hidden, ...)] with the check
    added to it. *)
Definition hello_command : Command.t World :=
  Command.Make "hello" "sg" [] hello.

Definition hidden_command : Command.t World :=
  Command.addCheck (Command.Make "specialCommand" "sg arg1" [] hidden)
                   [isGuildOwner].

(** Messages of a member who does not own the guild. *)
Definition from_member (text : string) : Message :=
  {| author := {| bot := false; id := "member" |};
     content := text;
     guild := Some {| ownerID := "owner" |} |}.

(** The bot, once the two commands are added. *)
Definition bot : Bot.t World :=
  Bot.addCommand (Bot.Make customErrorHandler [] [] "$")
                 [hello_command; hidden_command].

(** Two commands registered under one name, and a bot that holds both
    and keeps the default error handler. *)
Definition ping : Function.t World :=
  Function.Make "ping" "function ping(msg) { msg.channel.send('pong'); }"
    (fun msg _ => send "pong").

Definition echo : Function.t World :=
  Function.Make "echo" "function echo(msg, text) { msg.channel.send(text); }"
    (fun msg args => send (JS.join args (chr space))).

Definition two_pings : Bot.t World :=
  Bot.Make defaultErrorHandler
    [Command.Make "ping" EmptyString [] ping;
     Command.Make "ping" "text" [] echo]
    [] "$".

(** A command function that throws, an error handler that sends the
    message of the error, and two bots whose first command is the one that
    throws: one with that error handler, one with the default one. *)
Definition boom : Error := MkError "Error" "boom".

Definition failing : Function.t World :=
  Function.Make "failing" "function failing(msg) { throw new Error('boom'); }"
    (fun msg _ => throw boom).

Definition report : ErrorHandler World :=
  fun message error => send (error_message error).

Definition reporting_bot : Bot.t World :=
  Bot.Make report
    [Command.Make "ping" EmptyString [] failing;
     Command.Make "ping" EmptyString [] ping]
    [] "$".

Definition rethrowing_bot : Bot.t World :=
  Bot.Make defaultErrorHandler
    [Command.Make "ping" EmptyString [] failing;
     Command.Make "ping" EmptyString [] ping]
    [] "$".

(** A global check that returns false. *)
Definition nobody : Check World := fun msg => ret false.

(** A command behind three checks: the first returns true, the second
    returns false, the third would leave a text in the channel. *)
Definition anybody : Check World := fun msg => ret true.

Definition neverCalled : Check World :=
  fun msg => _ <- send "the third check was called" ;; ret true.

Definition guarded_command : Command.t World :=
  Command.Make "guarded" EmptyString [anybody; nobody; neverCalled] ping.

End Example.

(* ================================================================= *)
(** ** Observing the calls a dispatch makes *)

(** The module's only effects are the calls it makes to user code. To state
    which calls happen, in which order and with which arguments, every
    callback of a bot is wrapped so that it appends a record of each call,
    with how the call ended, to a log kept beside the world. The callbacks
    themselves still act on the world alone and cannot read or write the
    log; the code of the module is the same. *)

Module Spy.
Import Eff.

(** A call made to user code and the way it ended: the global check at
    index [i]; the check at index [i] of the command at index [c] of the
    registry; the command function of the command at index [c]; the error
    handler. *)
Inductive Event : Type :=
| GlobalCheckCalled (i : nat) (message : Message) (r : completion bool)
| CommandCheckCalled (c i : nat) (message : Message) (r : completion bool)
| CommandCalled (c : nat) (message : Message) (args : list string)
    (r : completion unit)
| ErrorHandlerCalled (message : Message) (error : Error) (r : completion unit).

Section Wrap.
Context {World : Type}.

Definition spy {A} (event : completion A -> Event) (f : eff World A)
  : eff (World * list Event) A :=
  fun s =>
    match f (fst s) with
    | (w1, r) => ((w1, snd s ++ [event r]), r)
    end.

Fixpoint spy_checks (event : nat -> Message -> completion bool -> Event)
    (i : nat) (checks : list (Check World))
  : list (Check (World * list Event)) :=
  match checks with
  | [] => []
  | check :: rest =>
      (fun message => spy (event i message) (check message))
        :: spy_checks event (S i) rest
  end.

Definition spy_function (c : nat) (f : Function.t World)
  : Function.t (World * list Event) :=
  Function.Make (Function.name f) (Function.toString f)
    (fun message args => spy (CommandCalled c message args)
                             (Function.call f message args)).

Definition spy_command (c : nat) (command : Command.t World)
  : Command.t (World * list Event) :=
  Command.Make (Command.name command) (Command.usage command)
    (spy_checks (CommandCheckCalled c) 0 (Command.checks command))
    (spy_function c (Command.commandFunction command)).

Fixpoint spy_commands (c : nat) (commands : list (Command.t World))
  : list (Command.t (World * list Event)) :=
  match commands with
  | [] => []
  | command :: rest => spy_command c command :: spy_commands (S c) rest
  end.

Definition spy_bot (b : Bot.t World) : Bot.t (World * list Event) :=
  Bot.Make
    (fun message error =>
       spy (ErrorHandlerCalled message error) (Bot.errorHandler b message error))
    (spy_commands 0 (Bot.commands b))
    (spy_checks GlobalCheckCalled 0 (Bot.checks b))
    (Bot.prefix b).

(** The calls one dispatch of [message] makes from the world [w], in
    order, and the way the dispatch ends. *)
Definition trace (b : Bot.t World) (message : Message) (w : World)
  : list Event :=
  snd (fst (Bot._commandHandler (spy_bot b) message (w, []))).

Definition outcome (b : Bot.t World) (message : Message) (w : World)
  : completion unit :=
  snd (Bot._commandHandler (spy_bot b) message (w, [])).

(** The same for one call of [performChecks] on the command at index [c]. *)
Definition checks_trace (c : nat) (command : Command.t World)
    (message : Message) (w : World) : list Event :=
  snd (fst (Command.performChecks (spy_command c command) message (w, []))).

Definition checks_outcome (c : nat) (command : Command.t World)
    (message : Message) (w : World) : completion bool :=
  snd (Command.performChecks (spy_command c command) message (w, [])).

End Wrap.

(** The records of the checks at indexes [i], ..., [i + k - 1] of one list,
    each called with [message] and each returning true. *)
Definition passed (event : nat -> Message -> completion bool -> Event)
    (message : Message) (i k : nat) : list Event :=
  map (fun j => event j message (Normal true)) (seq i k).

(** The registry indexes of the commands whose function a trace calls, in
    the order of the calls. *)
Fixpoint invoked (t : list Event) : list nat :=
  match t with
  | [] => []
  | CommandCalled c _ _ _ :: rest => c :: invoked rest
  | _ :: rest => invoked rest
  end.

End Spy.

(* ================================================================= *)
(** * The vocabulary of the properties *)

(** ** Command lines *)

Module Lines.
Import JS Tokenizer.
Local Open Scope string_scope.

(** A piece of a command line: a bare word, or a phrase between quotes. *)
Inductive piece : Type :=
| Word (text : string)
| Quoted (text : string).

Definition text_of (p : piece) : string :=
  match p with Word w => w | Quoted w => w end.

Definition render (p : piece) : string :=
  match p with
  | Word w => w
  | Quoted w => DQ ++ w ++ DQ
  end.

(** A piece is well formed when its text is not empty and holds no quote
    and no backslash, and no space either when it is a bare word. *)
Definition well_formed (p : piece) : Prop :=
  truthy (text_of p) = true /\
  includes (text_of p) dquote = false /\
  includes (text_of p) bslash = false /\
  match p with Word w => includes w space = false | Quoted _ => True end.

(** A run of [n] spaces. *)
Fixpoint spaces (n : nat) : string :=
  match n with
  | O => EmptyString
  | S n' => String space (spaces n')
  end.

(** The tokens pushed so far are never empty. *)
Definition tokens_truthy (tokens : list string) : Prop :=
  Forall (fun token => truthy token = true) tokens.

End Lines.

(** ** Function declarations and command names *)

Module Signature.
Import JS.
Local Open Scope string_scope.

(** The text of a function whose parameter list [params] follows a head
    that is not empty and holds no opening parenthesis. *)
Definition declaration (head params tail : string) : string :=
  head ++ String lparen (params ++ String rparen tail).

(** What lines 80-82 compute: the parameter text without its spaces and
    with a space for every comma. *)
Definition parameter_names (params : string) : string :=
  replace_all (remove_all params space) comma space.

(** The name a command gets: the explicit one when it is usable. *)
Definition usable_name (name : option string) : bool :=
  match name with
  | None => false
  | Some n => truthy n && negb (includes n space)
  end.

End Signature.

(** ** Logs of calls *)

Module Log.
Import Eff Spy.

(** [F] holds at every place of the log, of what is before the place, the
    event there and what is after it. *)
Definition everywhere (F : list Event -> Event -> list Event -> Prop)
    (t : list Event) : Prop :=
  forall pre x post, t = pre ++ x :: post -> F pre x post.

(** [F] still holds with more of the log before and after. *)
Definition stable (F : list Event -> Event -> list Event -> Prop) : Prop :=
  forall a u pre x post, F pre x post -> F (a ++ pre) x (post ++ u).

(** Where an event that is a [trigger] stands in the log, [G] holds of the
    event, of all that follows it and of the way the run ends. *)
Definition final (trigger : Event -> Prop)
    (G : Event -> list Event -> completion unit -> Prop)
    (t : list Event) (r : completion unit) : Prop :=
  forall pre x post, t = pre ++ x :: post -> trigger x -> G x post r.

(** What a list of [n] checks, numbered from [i], leaves in the log, and
    how the run ends: all return true; or the first [k] return true and
    the next returns false or throws, and no later one is called. *)
Inductive checks_shape (event : nat -> Message -> completion bool -> Event)
    (m : Message) (i n : nat) : list Event -> completion bool -> Prop :=
| all_passed :
    checks_shape event m i n (passed event m i n) (Normal true)
| one_refused (k : nat) :
    k < n ->
    checks_shape event m i n
      (passed event m i k ++ [event (i + k) m (Normal false)]) (Normal false)
| one_threw (k : nat) (e : Error) :
    k < n ->
    checks_shape event m i n
      (passed event m i k ++ [event (i + k) m (Throw e)]) (Throw e).

Section Shapes.
Context {World : Type}.
Variable b : Bot.t World.
Variable m : Message.
Variable name : string.
Variable args : list string.

(** What one turn of the loop over the commands leaves in the log, for the
    command at index [c], and how it ends: nothing when the name is not
    the verb; the run of its checks when one of them returns false or
    throws; the run of its checks, all true, then the call of its
    function, then the call of the error handler when the function
    threw. The turn ends with an error only when a check or the error
    handler throws one. *)
Inductive iteration_shape (c : nat) (command : Command.t World)
  : list Event -> completion unit -> Prop :=
| skipped :
    Command.name command <> name ->
    iteration_shape c command [] (Normal tt)
| refused (k : nat) :
    Command.name command = name ->
    k < List.length (Command.checks command) ->
    iteration_shape c command
      (passed (CommandCheckCalled c) m 0 k
         ++ [CommandCheckCalled c k m (Normal false)])
      (Normal tt)
| check_threw (k : nat) (e : Error) :
    Command.name command = name ->
    k < List.length (Command.checks command) ->
    iteration_shape c command
      (passed (CommandCheckCalled c) m 0 k
         ++ [CommandCheckCalled c k m (Throw e)])
      (Throw e)
| returned :
    Command.name command = name ->
    iteration_shape c command
      (passed (CommandCheckCalled c) m 0 (List.length (Command.checks command))
         ++ [CommandCalled c m args (Normal tt)])
      (Normal tt)
| handled (e : Error) (r : completion unit) (w w1 : World) :
    Command.name command = name ->
    Bot.errorHandler b m e w = (w1, r) ->
    iteration_shape c command
      (passed (CommandCheckCalled c) m 0 (List.length (Command.checks command))
         ++ [CommandCalled c m args (Throw e); ErrorHandlerCalled m e r])
      r.

(** What the loop over the commands leaves in the log from the command at
    index [c] on: the turns one after the other, up to the end of the list
    or to the first turn that ends with an error. *)
Inductive loop_shape
  : nat -> list (Command.t World) -> list Event -> completion unit -> Prop :=
| loop_end (c : nat) :
    loop_shape c [] [] (Normal tt)
| loop_next (c : nat) (command : Command.t World) (rest : list (Command.t World))
    (t u : list Event) (r : completion unit) :
    iteration_shape c command t (Normal tt) ->
    loop_shape (S c) rest u r ->
    loop_shape c (command :: rest) (t ++ u) r
| loop_abort (c : nat) (command : Command.t World) (rest : list (Command.t World))
    (t : list Event) (e : Error) :
    iteration_shape c command t (Throw e) ->
    loop_shape c (command :: rest) t (Throw e).

(** What a whole dispatch leaves in the log: the run of the global checks,
    and the loop over the commands after it when they all return true. *)
Inductive dispatch_shape : list Event -> completion unit -> Prop :=
| globally_refused (k : nat) :
    k < List.length (Bot.checks b) ->
    dispatch_shape
      (passed GlobalCheckCalled m 0 k ++ [GlobalCheckCalled k m (Normal false)])
      (Normal tt)
| global_threw (k : nat) (e : Error) :
    k < List.length (Bot.checks b) ->
    dispatch_shape
      (passed GlobalCheckCalled m 0 k ++ [GlobalCheckCalled k m (Throw e)])
      (Throw e)
| dispatched (u : list Event) (r : completion unit) :
    loop_shape 0 (Bot.commands b) u r ->
    dispatch_shape
      (passed GlobalCheckCalled m 0 (List.length (Bot.checks b)) ++ u) r.

(** An event of the loop over the commands: a call for the command at
    index [c], or a call of the error handler. *)
Definition of_command (c : nat) (x : Event) : Prop :=
  match x with
  | GlobalCheckCalled _ _ _ => False
  | CommandCheckCalled c' _ m' _ => c' = c /\ m' = m
  | CommandCalled c' m' args' _ => c' = c /\ m' = m /\ args' = args
  | ErrorHandlerCalled m' _ _ => m' = m
  end.

Definition from_command (c : nat) (x : Event) : Prop :=
  exists c', c <= c' /\ of_command c' x.


End Shapes.

(** The event is a check, global or of a command, that threw [e]. *)
Definition check_throws (x : Event) (e : Error) : Prop :=
  match x with
  | GlobalCheckCalled _ _ (Throw e') => e' = e
  | CommandCheckCalled _ _ _ (Throw e') => e' = e
  | _ => False
  end.

Definition some_check_throws (x : Event) : Prop := exists e, check_throws x e.

(** Nothing follows the event, and the run ends with the error it threw. *)
Definition ends_run (x : Event) (post : list Event) (r : completion unit) : Prop :=
  post = [] /\ forall e, check_throws x e -> r = Throw e.

(** At a call of a command function that threw [e], the next call is the
    error handler with the message and [e]; at a call of the error handler
    with [e], the call before is a command function that threw [e]. *)
Definition handler_follows (m : Message)
    (pre : list Event) (x : Event) (post : list Event) : Prop :=
  match x with
  | CommandCalled _ m' _ (Throw e) =>
      m' = m /\ exists r post', post = ErrorHandlerCalled m e r :: post'
  | ErrorHandlerCalled m' e _ =>
      m' = m /\ exists pre' c args', pre = pre' ++ [CommandCalled c m args' (Throw e)]
  | _ => True
  end.

(** A command function threw. *)
Definition command_throws (x : Event) : Prop :=
  match x with
  | CommandCalled _ _ _ (Throw _) => True
  | _ => False
  end.

(** The error handler is called with the message and the error, throws
    the error again, and the run ends with it. *)
Definition rethrown (m : Message) (x : Event) (post : list Event)
    (r : completion unit) : Prop :=
  match x with
  | CommandCalled _ _ _ (Throw e) =>
      post = [ErrorHandlerCalled m e (Throw e)] /\ r = Throw e
  | _ => True
  end.




End Log.

(** ** Escaped command lines, sizes and runs of global checks *)

Module Further.
Import JS Eff Spy.
Local Open Scope string_scope.

(** The characters the tokenizer gives a meaning to. *)
Definition special (c : ascii) : bool :=
  Ascii.eqb c dquote || Ascii.eqb c space || Ascii.eqb c bslash.

(** A text with a backslash before each of its special characters. *)
Fixpoint escape (w : string) : string :=
  match w with
  | EmptyString => EmptyString
  | String c rest =>
      if special c then String bslash (String c (escape rest))
      else String c (escape rest)
  end.

(** The number of characters of a list of tokens. *)
Fixpoint total_length (tokens : list string) : nat :=
  match tokens with
  | [] => 0
  | token :: rest => String.length token + total_length rest
  end.

(** The characters the tokenizer has pushed and buffered so far. *)
Definition kept (v : Tokenizer.vars) : nat :=
  total_length (Tokenizer.argArr v) + String.length (Tokenizer.buffer v).

(** A token with no quote and no backslash in it. *)
Definition unmarked (token : string) : Prop :=
  includes token dquote = false /\ includes token bslash = false.

(** The records of the global checks at indexes [i], [i + 1], ..., each
    called with [m], with the way each call ended. *)
Fixpoint global_calls (m : Message) (i : nat) (rs : list (completion bool))
  : list Event :=
  match rs with
  | [] => []
  | r :: rest => GlobalCheckCalled i m r :: global_calls m (S i) rest
  end.

Definition is_global_check (x : Event) : Prop :=
  match x with
  | GlobalCheckCalled _ _ _ => True
  | _ => False
  end.

(** The error handler threw. *)
Definition handler_throws (x : Event) : Prop :=
  match x with
  | ErrorHandlerCalled _ _ (Throw _) => True
  | _ => False
  end.

(** Nothing follows the call of the error handler, and the run ends with
    the error the handler threw. *)
Definition handler_ends_run (x : Event) (post : list Event)
    (r : completion unit) : Prop :=
  match x with
  | ErrorHandlerCalled _ _ (Throw e) => post = [] /\ r = Throw e
  | _ => True
  end.

(** The last call of a run that ends with the error [e]: a check that
    threw [e], or the error handler that threw [e], called with [m]. *)
Definition throws_last (m : Message) (t : list Event) (e : Error) : Prop :=
  exists pre x,
    t = (pre ++ [x])%list /\
    ((exists i, x = GlobalCheckCalled i m (Throw e)) \/
     (exists c i, x = CommandCheckCalled c i m (Throw e)) \/
     (exists e0, x = ErrorHandlerCalled m e0 (Throw e))).

(** A command function that throws the [PermissionError] of the example
    script. *)
Definition denied : Function.t Example.World :=
  Function.Make "denied" "function denied(msg) { throw new PermissionError(); }"
    (fun msg _ => throw Example.PermissionError).

(** Whether the author of the message owns its guild. *)
Definition owner_wrote (m : Message) : bool :=
  match guild m with
  | Some g => String.eqb (id (author m)) (ownerID g)
  | None => false
  end.

(** A call that throws in no world. *)
Definition never_throws {World A : Type} (f : eff World A) : Prop :=
  forall (w : World) (e : Error), snd (f w) <> Throw e.

End Further.

(* ================================================================= *)
(** * Properties of the tokenizer *)

Module TokenizerFacts.
Import JS Tokenizer Lines.
Local Open Scope string_scope.

Lemma append_assoc (s1 s2 s3 : string) : (s1 ++ s2) ++ s3 = s1 ++ (s2 ++ s3).
Proof. induction s1 as [|c s1 IH]; simpl; [reflexivity | now rewrite IH]. Qed.

Lemma append_empty_r (s : string) : s ++ EmptyString = s.
Proof. induction s as [|c s IH]; simpl; [reflexivity | now rewrite IH]. Qed.

Lemma push_char_assoc (s t : string) (c : ascii) :
  push_char s c ++ t = s ++ String c t.
Proof. unfold push_char, chr. now rewrite append_assoc. Qed.

Lemma truthy_true_iff (s : string) : truthy s = true <-> s <> EmptyString.
Proof. destruct s; simpl; split; congruence. Qed.

Lemma scan_app (s1 s2 : string) :
  forall v, scan v (s1 ++ s2) = scan (scan v s1) s2.
Proof. induction s1 as [|c s1 IH]; intros v; simpl; [reflexivity | apply IH]. Qed.

(** What [flush] does, by the value of [ready]. *)
Lemma flush_ready (a : list string) (b : string) (q e : bool) :
  flush (Vars a b q e true)
  = Vars (if truthy b then (a ++ [b])%list else a) EmptyString q e false.
Proof. unfold flush; simpl. destruct (truthy b); reflexivity. Qed.

(** [ready] is false again after every turn of the loop. *)
Lemma ready_step (v : vars) (c : ascii) : ready (step v c) = false.
Proof.
  unfold step. destruct (classify v c) as [a b q e [|]].
  - now rewrite flush_ready.
  - reflexivity.
Qed.

Lemma argArr_classify (v : vars) (c : ascii) : argArr (classify v c) = argArr v.
Proof.
  unfold classify.
  destruct (escaped v); [reflexivity|].
  destruct (Ascii.eqb c dquote); [destruct (inQuote v); reflexivity|].
  destruct (Ascii.eqb c space && negb (inQuote v)); [reflexivity|].
  destruct (Ascii.eqb c bslash); reflexivity.
Qed.

Lemma tokens_truthy_step (v : vars) (c : ascii) :
  tokens_truthy (argArr v) -> tokens_truthy (argArr (step v c)).
Proof.
  intros H. unfold step.
  rewrite <- (argArr_classify v c) in H.
  destruct (classify v c) as [a b q e [|]]; simpl in H.
  - rewrite flush_ready; simpl.
    destruct (truthy b) eqn:T; [|exact H].
    apply Forall_app; split; [exact H|]. constructor; [exact T | constructor].
  - exact H.
Qed.

Lemma tokens_truthy_scan (s : string) :
  forall v, tokens_truthy (argArr v) -> tokens_truthy (argArr (scan v s)).
Proof.
  induction s as [|c s IH]; intros v H; simpl; [exact H|].
  apply IH, tokens_truthy_step, H.
Qed.

Lemma tokens_truthy_finish (v : vars) :
  tokens_truthy (argArr v) -> tokens_truthy (finish v).
Proof.
  intros H. unfold finish. destruct (truthy (buffer v)) eqn:T; [|exact H].
  apply Forall_app; split; [exact H|]. constructor; [exact T | constructor].
Qed.

(** *** One turn of the loop, case by case *)

Lemma step_escaped (a : list string) (b : string) (q : bool) (c : ascii) :
  step (Vars a b q true false) c = Vars a (push_char b c) q false false.
Proof. reflexivity. Qed.

Lemma step_closing_quote (a : list string) (b : string) :
  step (Vars a b true false false) dquote
  = Vars (if truthy b then (a ++ [b])%list else a) EmptyString false false false.
Proof. unfold step; simpl. apply flush_ready. Qed.

Lemma step_opening_quote (a : list string) (b : string) :
  step (Vars a b false false false) dquote = Vars a b true false false.
Proof. reflexivity. Qed.

Lemma step_space_outside (a : list string) (b : string) :
  step (Vars a b false false false) space
  = Vars (if truthy b then (a ++ [b])%list else a) EmptyString false false false.
Proof. unfold step; simpl. apply flush_ready. Qed.

Lemma step_space_inside (a : list string) (b : string) :
  step (Vars a b true false false) space
  = Vars a (push_char b space) true false false.
Proof. reflexivity. Qed.

Lemma step_backslash (a : list string) (b : string) (q : bool) :
  step (Vars a b q false false) bslash = Vars a b q true false.
Proof. destruct q; reflexivity. Qed.

Lemma step_ordinary (a : list string) (b : string) (q : bool) (c : ascii) :
  Ascii.eqb c dquote = false ->
  Ascii.eqb c bslash = false ->
  Ascii.eqb c space && negb q = false ->
  step (Vars a b q false false) c = Vars a (push_char b c) q false false.
Proof.
  intros Hq Hb Hs. unfold step, classify; simpl.
  rewrite Hq, Hs, Hb. reflexivity.
Qed.

(** The loop leaves [ready] false, from the initial values too. *)
Lemma ready_scan (s : string) :
  forall v, ready v = false -> ready (scan v s) = false.
Proof.
  induction s as [|c s IH]; intros v H; simpl; [exact H|].
  apply IH, ready_step.
Qed.

(** A run of characters with no quote and no backslash in it, and no space
    either unless a quote is open, goes to the buffer as it is. *)
Lemma scan_ordinary (w : string) :
  forall (a : list string) (b : string) (q : bool),
    includes w dquote = false ->
    includes w bslash = false ->
    (q = false -> includes w space = false) ->
    scan (Vars a b q false false) w = Vars a (b ++ w) q false false.
Proof.
  induction w as [|c w IH]; intros a b q Hq Hb Hs; simpl.
  - now rewrite append_empty_r.
  - simpl in Hq, Hb. apply orb_false_elim in Hq, Hb.
    destruct Hq as [Hq1 Hq2], Hb as [Hb1 Hb2].
    rewrite step_ordinary; try assumption.
    + rewrite IH; try assumption.
      * now rewrite push_char_assoc.
      * intros E. specialize (Hs E). simpl in Hs.
        now apply orb_false_elim in Hs.
    + destruct q; [now rewrite andb_false_r|].
      specialize (Hs eq_refl). simpl in Hs. apply orb_false_elim in Hs.
      now rewrite (proj1 Hs).
Qed.

(** *** Words and quoted phrases *)

Lemma scan_piece_then_space (p : piece) (a : list string) :
  well_formed p ->
  scan (Vars a EmptyString false false false) (render p ++ chr space)
  = Vars (a ++ [text_of p]) EmptyString false false false.
Proof.
  intros (Ht & Hq & Hb & Hs). rewrite scan_app.
  destruct p as [w|w]; simpl in *.
  - rewrite scan_ordinary by (try assumption; intros _; assumption).
    simpl scan. rewrite step_space_outside. simpl. now rewrite Ht.
  - rewrite step_opening_quote, scan_app.
    rewrite scan_ordinary by (try assumption; intros E; discriminate E).
    simpl. rewrite step_closing_quote, Ht. apply step_space_outside.
Qed.

Lemma finish_piece (p : piece) (a : list string) :
  well_formed p ->
  finish (scan (Vars a EmptyString false false false) (render p))
  = (a ++ [text_of p])%list.
Proof.
  intros (Ht & Hq & Hb & Hs).
  destruct p as [w|w]; simpl in *.
  - rewrite scan_ordinary by (try assumption; intros _; assumption).
    unfold finish; simpl. now rewrite Ht.
  - rewrite step_opening_quote, scan_app.
    rewrite scan_ordinary by (try assumption; intros E; discriminate E).
    simpl. rewrite step_closing_quote, Ht. reflexivity.
Qed.

Lemma tokenize_pieces_from (ps : list piece) :
  forall a : list string,
    Forall well_formed ps ->
    finish (scan (Vars a EmptyString false false false)
                 (join (map render ps) (chr space)))
    = (a ++ map text_of ps)%list.
Proof.
  induction ps as [|p ps IH]; intros a H.
  - simpl. unfold finish; simpl. now rewrite app_nil_r.
  - inversion H as [|? ? Hp Hps]; subst.
    destruct ps as [|p' ps].
    + simpl. now apply finish_piece.
    + change (join (map render (p :: p' :: ps)) (chr space))
        with (render p ++ chr space ++ join (map render (p' :: ps)) (chr space)).
      rewrite <- append_assoc, scan_app, scan_piece_then_space by assumption.
      rewrite IH by assumption. now rewrite <- app_assoc.
Qed.

(** *** The remainder of the content *)

Lemma join_cons (w w' : string) (ws : list string) (sep : string) :
  join (w :: w' :: ws) sep = w ++ sep ++ join (w' :: ws) sep.
Proof. reflexivity. Qed.

Lemma join_split (s : string) (c : ascii) : join (split s c) (chr c) = s.
Proof.
  induction s as [|d s IH]; [reflexivity|].
  simpl split. destruct (Ascii.eqb d c) eqn:E.
  - apply Ascii.eqb_eq in E; subst d.
    destruct (split s c) as [|w ws] eqn:S.
    + simpl in IH. now subst s.
    + rewrite join_cons, IH. reflexivity.
  - destruct (split s c) as [|w ws] eqn:S.
    + simpl in IH. now subst s.
    + destruct ws as [|w' ws].
      * simpl in *. now subst s.
      * rewrite join_cons. rewrite join_cons in IH. rewrite <- IH. reflexivity.
Qed.

Lemma split_word_then (word rest : string) (c : ascii) :
  includes word c = false ->
  split (word ++ String c rest) c = word :: split rest c.
Proof.
  induction word as [|d word IH]; intros H; simpl.
  - now rewrite Ascii.eqb_refl.
  - simpl in H. apply orb_false_elim in H. destruct H as [H1 H2].
    rewrite H1, IH by assumption. reflexivity.
Qed.

(** After a first word with no space in it and one space, the remainder
    is the rest of the content, character for character. *)
Lemma remainder_after_word (word rest : string) :
  includes word space = false ->
  remainder (word ++ String space rest) = rest.
Proof.
  intros H. unfold remainder. rewrite split_word_then by assumption.
  apply join_split.
Qed.

Lemma scan_spaces (n : nat) (a : list string) :
  scan (Vars a EmptyString false false false) (spaces n)
  = Vars a EmptyString false false false.
Proof.
  induction n as [|n IH]; [reflexivity|].
  simpl. rewrite step_space_outside. simpl. exact IH.
Qed.

(** The values of the variables once [s] has been read. *)
Lemma scan_initial_shape (s : string) :
  scan initial s
  = Vars (argArr (scan initial s)) (buffer (scan initial s))
         (inQuote (scan initial s)) (escaped (scan initial s)) false.
Proof.
  pose proof (ready_scan s initial eq_refl) as R.
  destruct (scan initial s) as [a b q e r]; simpl in *. now subst r.
Qed.

(** *** The claims about the tokenizer *)

(** C1. The tokenizer splits on spaces outside quotes and keeps a quoted
    region as one token with its spaces. The two inputs of the
    specification give the tokens it states. A line made of bare words and
    quoted phrases separated by single spaces gives back their texts, one
    token each, in order. After any input that leaves no escape pending: a
    space read while no quote is open pushes the buffer (when it is not
    empty) and empties it; a space read while a quote is open goes to the
    buffer and pushes nothing; a closing quote pushes the buffer (when it
    is not empty) and empties it, with no space read; an opening quote
    changes nothing but [inQuote]. The remainder is what follows the
    first space of the content: [_parseArgs] on a content is the tokenizer
    on what follows its first word. *)
Theorem tokenizer_splits_on_spaces_and_keeps_quotes :
  (forall word rest : string,
     includes word space = false ->
     Bot._parseArgs (word ++ String space rest) = tokenize rest) /\
  tokenize "a b c" = ["a"; "b"; "c"] /\
  tokenize ("a " ++ DQ ++ "b c" ++ DQ ++ " d") = ["a"; "b c"; "d"] /\
  (forall ps : list piece,
     Forall well_formed ps ->
     tokenize (join (map render ps) (chr space)) = map text_of ps) /\
  (forall s : string,
     let v := scan initial s in
     escaped v = false -> inQuote v = false ->
     scan initial (s ++ chr space)
     = Vars (if truthy (buffer v) then (argArr v ++ [buffer v])%list else argArr v)
            EmptyString false false false) /\
  (forall s : string,
     let v := scan initial s in
     escaped v = false -> inQuote v = true ->
     scan initial (s ++ chr space)
     = Vars (argArr v) (push_char (buffer v) space) true false false) /\
  tokenize (DQ ++ "ab" ++ DQ ++ "cd") = ["ab"; "cd"] /\
  (forall s : string,
     let v := scan initial s in
     escaped v = false -> inQuote v = true ->
     scan initial (s ++ DQ)
     = Vars (if truthy (buffer v) then (argArr v ++ [buffer v])%list else argArr v)
            EmptyString false false false) /\
  tokenize ("ab" ++ DQ ++ "cd" ++ DQ) = ["abcd"] /\
  (forall s : string,
     let v := scan initial s in
     escaped v = false -> inQuote v = false ->
     scan initial (s ++ DQ) = Vars (argArr v) (buffer v) true false false).
Proof.
  assert (K : forall (s : string) (c : ascii) (q : bool),
             escaped (scan initial s) = false ->
             inQuote (scan initial s) = q ->
             scan initial (s ++ chr c)
             = step (Vars (argArr (scan initial s)) (buffer (scan initial s))
                          q false false) c).
  { intros s c q He Hq. rewrite scan_app, (scan_initial_shape s), He, Hq.
    reflexivity. }
  split; [intros word rest H; unfold Bot._parseArgs;
          now rewrite remainder_after_word|].
  split; [reflexivity|]. split; [reflexivity|].
  split; [intros ps H; apply (tokenize_pieces_from ps []); exact H|].
  split; [intros s v He Hq; unfold v in *;
          rewrite (K s space false He Hq); apply step_space_outside|].
  split; [intros s v He Hq; unfold v in *;
          rewrite (K s space true He Hq); apply step_space_inside|].
  split; [reflexivity|].
  split; [intros s v He Hq; unfold v, DQ in *;
          rewrite (K s dquote true He Hq); apply step_closing_quote|].
  split; [reflexivity|].
  intros s v He Hq; unfold v, DQ in *.
  rewrite (K s dquote false He Hq). apply step_opening_quote.
Qed.

(** A line of two bare words around a quoted phrase. *)
Lemma tokenizer_pieces_example :
  tokenize (join (map render [Word "a"; Quoted "b c"; Word "d"]) (chr space))
  = map text_of [Word "a"; Quoted "b c"; Word "d"].
Proof.
  apply (proj1 (proj2 (proj2 (proj2 tokenizer_splits_on_spaces_and_keeps_quotes)))).
  repeat constructor.
Defined.

(** C2. A character that follows an unconsumed backslash is appended to the
    buffer as it is, whatever it is, and the backslash is not: after any
    input [s] that leaves no escape pending, reading a backslash and then
    any character [c] changes the buffer to the buffer with [c] appended
    and changes nothing else. The two inputs of the specification give the
    tokens it states. A backslash that ends the input is dropped: the
    tokens are those of the input without it. *)
Theorem tokenizer_escape_is_literal :
  (forall (s : string) (c : ascii),
     let v := scan initial s in
     escaped v = false ->
     scan initial (s ++ BS ++ chr c)
     = Vars (argArr v) (push_char (buffer v) c) (inQuote v) false false) /\
  tokenize ("a" ++ BS ++ " b") = ["a b"] /\
  tokenize (BS ++ DQ ++ "quoted" ++ BS ++ DQ) = [DQ ++ "quoted" ++ DQ] /\
  (forall s : string,
     escaped (scan initial s) = false ->
     tokenize (s ++ BS) = tokenize s).
Proof.
  split; [|split; [reflexivity|split; [reflexivity|]]].
  - intros s c v He. rewrite scan_app. fold v.
    unfold v in *. rewrite scan_initial_shape, He.
    simpl scan. rewrite step_backslash. apply step_escaped.
  - intros s He. unfold tokenize. rewrite scan_app.
    rewrite (scan_initial_shape s), He.
    simpl scan. rewrite step_backslash. reflexivity.
Qed.

(** A backslash that ends the input [ab c] is dropped. *)
Lemma tokenizer_trailing_backslash_example :
  tokenize ("ab c" ++ BS) = tokenize "ab c".
Proof.
  apply (proj2 (proj2 (proj2 tokenizer_escape_is_literal)) "ab c").
  reflexivity.
Defined.



(** C10. No token is the empty string, for the tokenizer on a remainder
    and for [_parseArgs] on a whole content. An empty pair of quotes gives
    no token: alone, and anywhere a token may start or end, where the
    tokens are those of the input without the pair. A run of spaces gives
    no token. *)
Theorem tokenizer_tokens_never_empty :
  (forall argStr : string,
     Forall (fun token => token <> EmptyString) (tokenize argStr)) /\
  (forall str : string,
     Forall (fun token => token <> EmptyString) (Bot._parseArgs str)) /\
  tokenize (DQ ++ DQ) = [] /\
  (forall n : nat, tokenize (spaces n) = []) /\
  (forall s : string,
     escaped (scan initial s) = false -> inQuote (scan initial s) = false ->
     tokenize (s ++ DQ ++ DQ) = tokenize s /\
     scan initial (s ++ DQ ++ DQ ++ chr space) = scan initial (s ++ chr space)).
Proof.
  assert (T : forall argStr,
             Forall (fun token => token <> EmptyString) (tokenize argStr)).
  { intros argStr.
    assert (H : tokens_truthy (tokenize argStr)).
    { apply tokens_truthy_finish, tokens_truthy_scan. constructor. }
    eapply Forall_impl; [|exact H]. intros t. apply truthy_true_iff. }
  split; [exact T|]. split; [intros str; apply T|].
  split; [reflexivity|]. split.
  - intros n. unfold tokenize, initial. now rewrite scan_spaces.
  - intros s He Hq. split.
    + unfold tokenize. rewrite scan_app, (scan_initial_shape s), He, Hq.
      simpl scan. rewrite step_opening_quote, step_closing_quote.
      unfold finish; simpl. destruct (truthy (buffer (scan initial s))); reflexivity.
    + rewrite !scan_app, (scan_initial_shape s), He, Hq.
      simpl scan. rewrite step_opening_quote, step_closing_quote.
      rewrite !step_space_outside.
      destruct (truthy (buffer (scan initial s))); reflexivity.
Qed.

(** An empty pair of quotes between two words. *)
Lemma tokenizer_empty_pair_example :
  tokenize ("a " ++ DQ ++ DQ) = tokenize "a " /\
  scan initial ("a " ++ DQ ++ DQ ++ chr space) = scan initial ("a " ++ chr space).
Proof.
  apply (proj2 (proj2 (proj2 (proj2 tokenizer_tokens_never_empty))) "a ");
    reflexivity.
Defined.

End TokenizerFacts.

(* ================================================================= *)
(** * Properties of the command constructor *)

Module CommandFacts.
Import JS Eff Signature.
Local Open Scope string_scope.

(** *** The parentheses of the source text *)

Lemma find_parens_before (head rest : string) :
  forall i stop : nat,
    includes head lparen = false ->
    Command.find_parens (head ++ rest) i 0 stop
    = Command.find_parens rest (i + String.length head) 0 stop.
Proof.
  induction head as [|c head IH]; intros i stop H; simpl.
  - now rewrite Nat.add_0_r.
  - simpl in H. apply orb_false_elim in H. destruct H as [H1 H2].
    rewrite H1. simpl. rewrite IH by assumption. f_equal. lia.
Qed.

Lemma find_parens_inside (params tail : string) :
  forall i start stop : nat,
    start <> 0 ->
    includes params rparen = false ->
    Command.find_parens (params ++ String rparen tail) i start stop
    = (start, i + String.length params).
Proof.
  induction params as [|c params IH]; intros i start stop Hs H; simpl.
  - destruct start as [|start]; [contradiction|]. simpl. now rewrite Nat.add_0_r.
  - simpl in H. apply orb_false_elim in H. destruct H as [H1 H2].
    destruct start as [|start]; [contradiction|]. simpl.
    rewrite H1. rewrite IH by (try assumption; discriminate). f_equal. lia.
Qed.

Lemma substring_skip (head s : string) (n m : nat) :
  substring (String.length head + n) m (head ++ s) = substring n m s.
Proof. induction head as [|c head IH]; simpl; [reflexivity | exact IH]. Qed.

Lemma substring_prefix (params tail : string) :
  substring 0 (String.length params) (params ++ tail) = params.
Proof.
  induction params as [|c params IH]; simpl.
  - destruct tail; reflexivity.
  - now rewrite IH.
Qed.

Lemma parse_signature_declaration (head params tail : string) :
  truthy head = true ->
  includes head lparen = false ->
  includes params rparen = false ->
  Command.parse_signature (declaration head params tail)
  = slice_from (parameter_names params) 1.
Proof.
  intros Ht Hh Hp. unfold Command.parse_signature, declaration.
  rewrite find_parens_before by assumption. simpl Command.find_parens.
  assert (N : String.length head <> 0) by (destruct head; [discriminate | simpl; lia]).
  destruct (String.length head) as [|n] eqn:L; [contradiction|].
  simpl. rewrite find_parens_inside by (try assumption; discriminate).
  unfold parameter_names. do 2 f_equal. unfold slice.
  replace (S (S n) + String.length params - (S n + 1)) with (String.length params) by lia.
  rewrite <- L.
  rewrite substring_skip.
  change (String lparen (params ++ String rparen tail))
    with (chr lparen ++ (params ++ String rparen tail)).
  change 1 with (String.length (chr lparen) + 0) at 1.
  rewrite substring_skip. now rewrite substring_prefix.
Qed.

Lemma constructor_name {World : Type} (f : Function.t World)
    (name usage : option string) (checks : option (list (Check World))) :
  exists command,
    Command.constructor (Some f) name usage checks = Normal command /\
    Command.commandFunction command = f /\
    Command.name command
    = match name with
      | Some n => if usable_name name then n else Function.name f
      | None => Function.name f
      end.
Proof.
  eexists. split; [reflexivity|]. split; [reflexivity|].
  destruct name as [n|]; simpl; [|reflexivity].
  destruct (truthy n), (includes n space); reflexivity.
Qed.

(** The name of a command has no space when the name of its function has
    none, whatever name is given. *)
Lemma constructor_name_without_space {World : Type} (f : Function.t World)
    (name usage : option string) (checks : option (list (Check World)))
    (command : Command.t World) :
  includes (Function.name f) space = false ->
  Command.constructor (Some f) name usage checks = Normal command ->
  includes (Command.name command) space = false.
Proof.
  intros Hf H.
  destruct (constructor_name f name usage checks) as (c & E & _ & N).
  rewrite E in H. injection H as <-. rewrite N.
  destruct name as [n|]; [|exact Hf]. simpl.
  destruct (truthy n); simpl; [|exact Hf].
  destruct (includes n space) eqn:I; simpl; [exact Hf | exact I].
Qed.

(** Adding checks leaves the name as it is. *)
Lemma addCheck_name {World : Type} (command : Command.t World)
    (arguments : list (Check World)) :
  Command.name (Command.addCheck command arguments) = Command.name command.
Proof. reflexivity. Qed.

(** The verb the dispatcher compares names with has no space in it, for a
    prefix with no space: a command whose name has one never matches. *)
Lemma first_split_without (s : string) (c : ascii) :
  includes (first (split s c)) c = false.
Proof.
  induction s as [|d s IH]; [reflexivity|].
  simpl split. destruct (Ascii.eqb d c) eqn:E; [reflexivity|].
  destruct (split s c) as [|w ws]; simpl in *; rewrite E; [reflexivity | exact IH].
Qed.

Lemma includes_substring (s : string) (c : ascii) :
  includes s c = false -> forall n m, includes (substring n m s) c = false.
Proof.
  induction s as [|d s IH]; intros H n m.
  - destruct n, m; reflexivity.
  - simpl in H. apply orb_false_elim in H. destruct H as [H1 H2].
    destruct n as [|n]; [destruct m as [|m]|]; simpl; [reflexivity | | now apply IH].
    rewrite H1. now apply IH.
Qed.

Lemma remove_first_eq (s p : string) :
  remove_first s p
  = if String.prefix p s then slice_from s (String.length p)
    else match s with
         | EmptyString => EmptyString
         | String d rest => String d (remove_first rest p)
         end.
Proof. destruct s; reflexivity. Qed.

Lemma includes_remove_first (s p : string) (c : ascii) :
  includes s c = false -> includes (remove_first s p) c = false.
Proof.
  induction s as [|d s IH]; intros H.
  - destruct p; reflexivity.
  - rewrite remove_first_eq.
    destruct (String.prefix p (String d s)); [now apply includes_substring|].
    simpl in *. apply orb_false_elim in H. destruct H as [H1 H2].
    rewrite H1. now apply IH.
Qed.

Lemma verb_without_space (prefix content : string) :
  includes (Bot.verb prefix content) space = false.
Proof. apply includes_remove_first, first_split_without. Qed.

(** *** The claims about the constructor *)

(** C3. The usage derived from a function is the text between its
    parentheses without its spaces and with a space for every comma, less
    its first character: for [hidden(msg, arg1)] of the example script it
    is [sg arg1], for [hello (msg)] it is [sg]. The first parameter name
    is not removed as a whole. *)
Theorem derived_usage_drops_one_character :
  Command.constructor (Some Example.hidden) (Some "specialCommand")
                      (Some EmptyString) (Some [])
  = Normal (Command.Make "specialCommand" "sg arg1" [] Example.hidden) /\
  Command.constructor (Some Example.hello) None None None
  = Normal Example.hello_command /\
  (forall head params tail : string,
     truthy head = true ->
     includes head lparen = false ->
     includes params rparen = false ->
     Command.parse_signature (declaration head params tail)
     = slice_from (parameter_names params) 1).
Proof.
  split; [reflexivity|]. split; [reflexivity|].
  apply parse_signature_declaration.
Qed.

(** C8. The constructor keeps an explicit name that is not empty and has
    no space, and takes the name of the function otherwise, as it is: for
    the bound function [hello.bind(thisArg)] and no explicit name, the name
    of the command is [bound hello], with a space. The name has no space
    whenever the name of the function has none. The verb of a message never
    has a space, so a command whose name has one is never matched. *)
Theorem command_name_is_function_name_unchecked :
  (exists command : Command.t Example.World,
     Command.constructor (Some (Function.bind Example.hello)) None None None
     = Normal command /\
     Command.name command = "bound hello" /\
     includes (Command.name command) space = true) /\
  (forall (World : Type) (f : Function.t World) (name usage : option string)
          (checks : option (list (Check World))),
     exists command : Command.t World,
       Command.constructor (Some f) name usage checks = Normal command /\
       Command.name command
       = match name with
         | Some n => if usable_name name then n else Function.name f
         | None => Function.name f
         end /\
       (includes (Function.name f) space = false ->
        includes (Command.name command) space = false)) /\
  (forall prefix content : string,
     includes (Bot.verb prefix content) space = false).
Proof.
  split; [|split; [|exact verb_without_space]].
  - eexists. split; [reflexivity|]. split; reflexivity.
  - intros World f name usage checks.
    destruct (constructor_name f name usage checks) as (c & E & _ & N).
    exists c. split; [exact E|]. split; [exact N|].
    intros Hf. exact (constructor_name_without_space f name usage checks c Hf E).
Qed.

End CommandFacts.

(* ================================================================= *)
(** * Properties of the checks and of the dispatcher *)

Module DispatchFacts.
Import Eff Spy Log Further.

(** *** Lists of events *)

Lemma app_cons_split {A : Type} (a u pre post : list A) (x : A) :
  a ++ u = pre ++ x :: post ->
  (exists post', a = pre ++ x :: post' /\ post = post' ++ u) \/
  (exists pre', pre = a ++ pre' /\ u = pre' ++ x :: post).
Proof.
  revert pre. induction a as [|y a IH]; intros pre H.
  - right. exists pre. split; [reflexivity | exact H].
  - destruct pre as [|p pre]; simpl in H; injection H as -> H.
    + left. exists a. split; [reflexivity | now symmetry].
    + destruct (IH pre H) as [(post' & -> & ->) | (pre' & -> & ->)].
      * left. exists post'. split; reflexivity.
      * right. exists pre'. split; reflexivity.
Qed.

(** An element that is not in [a] and splits [a ++ u] splits [u]. *)
Lemma app_split_right {A : Type} (a u pre post : list A) (x : A) :
  ~ In x a ->
  a ++ u = pre ++ x :: post ->
  exists pre', pre = a ++ pre' /\ u = pre' ++ x :: post.
Proof.
  intros N H. destruct (app_cons_split a u pre post x H) as [(post' & E & _) | R].
  - exfalso. apply N. rewrite E. apply in_elt.
  - exact R.
Qed.

Lemma in_passed (event : nat -> Message -> completion bool -> Event)
    (m : Message) (i k : nat) (ev : Event) :
  In ev (passed event m i k) <->
  exists j, i <= j < i + k /\ ev = event j m (Normal true).
Proof.
  unfold passed. rewrite in_map_iff. split.
  - intros (j & <- & H). apply in_seq in H. exists j. split; [lia | reflexivity].
  - intros (j & H & ->). exists j. split; [reflexivity | apply in_seq; lia].
Qed.

Lemma passed_succ (event : nat -> Message -> completion bool -> Event)
    (m : Message) (i k : nat) :
  passed event m i (S k) = event i m (Normal true) :: passed event m (S i) k.
Proof. reflexivity. Qed.

Lemma invoked_app (t u : list Event) : invoked (t ++ u) = invoked t ++ invoked u.
Proof.
  induction t as [|ev t IH]; [reflexivity|].
  destruct ev; simpl; now rewrite IH.
Qed.

(** *** The shape of a run of checks *)

Lemma checks_shape_cons (event : nat -> Message -> completion bool -> Event)
    (m : Message) (i n : nat) (t : list Event) (r : completion bool) :
  checks_shape event m (S i) n t r ->
  checks_shape event m i (S n) (event i m (Normal true) :: t) r.
Proof.
  intros [|k H|k e H].
  - rewrite <- passed_succ. constructor.
  - rewrite app_comm_cons, <- passed_succ.
    replace (S i + k) with (i + S k) by lia. constructor. lia.
  - rewrite app_comm_cons, <- passed_succ.
    replace (S i + k) with (i + S k) by lia. constructor. lia.
Qed.

Section Checks.
Context {World : Type}.
Variable event : nat -> Message -> completion bool -> Event.
Variable m : Message.

(** The wrapped checks run as the checks do, on the world, and log a run
    of the shape above after what the log holds. *)
Lemma spied_checks (cs : list (Check World)) :
  forall (i : nat) (w : World),
  exists t,
    checks_shape event m i (List.length cs) t
      (snd (Command.performChecks_from cs m w)) /\
    forall l,
      Command.performChecks_from (spy_checks event i cs) m (w, l)
      = ((fst (Command.performChecks_from cs m w), l ++ t),
         snd (Command.performChecks_from cs m w)).
Proof.
  induction cs as [|check cs IH]; intros i w.
  - exists []. split; [constructor|]. intros l. simpl. unfold ret.
    now rewrite app_nil_r.
  - simpl. unfold bind, spy. simpl fst. simpl snd.
    destruct (check m w) as [w1 [[|]|e]] eqn:E; simpl.
    + destruct (IH (S i) w1) as (t & S & H).
      exists (event i m (Normal true) :: t). split.
      * now apply checks_shape_cons.
      * intros l. rewrite H, <- app_assoc. reflexivity.
    + exists [event i m (Normal false)]. split.
      * replace i with (i + 0) at 2 by lia.
        apply (one_refused event m i (S (List.length cs)) 0). lia.
      * intros l. reflexivity.
    + exists [event i m (Throw e)]. split.
      * replace i with (i + 0) at 2 by lia.
        apply (one_threw event m i (S (List.length cs)) 0 e). lia.
      * intros l. reflexivity.
Qed.

End Checks.


(** *** The claim about [performChecks] *)

(** C7. [performChecks] calls the checks in the order of the list, each
    with the message, up to the first that does not return true: the log
    of one call holds the checks at indexes 0, 1, ... in that order, all
    returning true but possibly the last. It returns true exactly when
    every check of the list was called and returned true, so also for the
    empty list; it returns false when a check returned false, and no check
    after that one is called; an error a check throws ends the call the
    same way and is thrown on. With three checks of which the first
    returns true and the second false, the result is false and the third
    is not called, whatever it is. *)
Theorem performChecks_in_order_until_first_false :
  forall (World : Type) (c : nat) (command : Command.t World)
         (m : Message) (w : World),
    let n := List.length (Command.checks command) in
    let t := checks_trace c command m w in
    let r := checks_outcome c command m w in
    r = snd (Command.performChecks command m w) /\
    ((r = Normal true /\ t = passed (CommandCheckCalled c) m 0 n) \/
     (exists k, k < n /\ r = Normal false /\
        t = passed (CommandCheckCalled c) m 0 k
            ++ [CommandCheckCalled c k m (Normal false)]) \/
     (exists k e, k < n /\ r = Throw e /\
        t = passed (CommandCheckCalled c) m 0 k
            ++ [CommandCheckCalled c k m (Throw e)])) /\
    (Command.checks command = [] ->
     Command.performChecks command m w = (w, Normal true)) /\
    (forall (returnsTrue returnsFalse neverCalled : Check World) (w1 w2 : World),
       Command.checks command = [returnsTrue; returnsFalse; neverCalled] ->
       returnsTrue m w = (w1, Normal true) ->
       returnsFalse m w1 = (w2, Normal false) ->
       Command.performChecks command m w = (w2, Normal false) /\
       t = [CommandCheckCalled c 0 m (Normal true);
            CommandCheckCalled c 1 m (Normal false)]).
Proof.
  intros World c command m w n t r.
  destruct (spied_checks (CommandCheckCalled c) m (Command.checks command) 0 w)
    as (t0 & S & H).
  assert (Et : t = t0).
  { unfold t, checks_trace, Command.performChecks. simpl. now rewrite H. }
  assert (Er : r = snd (Command.performChecks command m w)).
  { unfold r, checks_outcome, Command.performChecks. simpl. now rewrite H. }
  split; [exact Er|]. split; [|split].
  - rewrite Et, Er. unfold Command.performChecks. fold n in S.
    inversion S as [E1 E2|k Hk E1 E2|k e Hk E1 E2].
    + left. split; reflexivity.
    + right; left. exists k. repeat split; try assumption; reflexivity.
    + right; right. exists k, e. repeat split; try assumption; reflexivity.
  - intros E. unfold Command.performChecks. rewrite E. reflexivity.
  - intros returnsTrue returnsFalse neverCalled w1 w2 E H1 H2.
    unfold t, checks_trace, Command.performChecks, spy_command.
    rewrite E. simpl. unfold bind, spy. simpl. rewrite H1. simpl.
    rewrite H2. simpl. split; reflexivity.
Qed.


(** The three checks of the specification: the result is false, the log
    holds the first two calls, and the channel is left empty. *)
Lemma performChecks_three_checks_example :
  Command.performChecks Example.guarded_command (Example.from_member "$guarded") []
  = ([], Normal false) /\
  checks_trace 0 Example.guarded_command (Example.from_member "$guarded") []
  = [CommandCheckCalled 0 0 (Example.from_member "$guarded") (Normal true);
     CommandCheckCalled 0 1 (Example.from_member "$guarded") (Normal false)].
Proof.
  apply (proj2 (proj2 (proj2
           (performChecks_in_order_until_first_false Example.World 0
              Example.guarded_command (Example.from_member "$guarded") []))))
    with (returnsTrue := Example.anybody) (returnsFalse := Example.nobody)
         (neverCalled := Example.neverCalled) (w1 := []);
    reflexivity.
Defined.

(** *** The shape of a dispatch *)

Section Spied.
Context {World : Type}.
Variable b : Bot.t World.
Variable m : Message.
Variable name : string.
Variable args : list string.

Lemma spied_iteration (c : nat) (command : Command.t World) (w : World) :
  exists w1 r t,
    iteration_shape b m name args c command t r /\
    (forall l,
       Bot.dispatch_to (spy_bot b) m (spy_command c command) name args (w, l)
       = ((w1, l ++ t), r)) /\
    Bot.dispatch_to b m command name args w = (w1, r).
Proof.
  unfold Bot.dispatch_to, Command.performChecks. simpl.
  destruct (String.eqb (Command.name command) name) eqn:N.
  - apply String.eqb_eq in N.
    destruct (spied_checks (CommandCheckCalled c) m (Command.checks command) 0 w)
      as (t0 & S & H).
    unfold bind.
    destruct (Command.performChecks_from (Command.checks command) m w)
      as [w1 r0] eqn:P. simpl in S, H.
    inversion S as [E1 E2|k Hk E1 E2|k e Hk E1 E2]; subst t0 r0.
    + unfold Bot.invoke, try_catch. simpl. unfold spy at 1. simpl.
      destruct (Function.call (Command.commandFunction command) m args w1)
        as [w2 [[]|e]] eqn:F.
      * exists w2, (Normal tt), (passed (CommandCheckCalled c) m 0
                   (List.length (Command.checks command))
                   ++ [CommandCalled c m args (Normal tt)]).
        split; [now apply returned|]. split; [|reflexivity].
        intros l. rewrite H. simpl. rewrite F. now rewrite app_assoc.
      * destruct (Bot.errorHandler b m e w2) as [w3 r] eqn:EH.
        exists w3, r, (passed (CommandCheckCalled c) m 0
                   (List.length (Command.checks command))
                   ++ [CommandCalled c m args (Throw e); ErrorHandlerCalled m e r]).
        split; [now apply (handled b m name args c command e r w2 w3)|]. split; [|reflexivity].
        intros l. rewrite H. simpl. rewrite F. unfold spy. simpl. rewrite EH.
        rewrite <- !app_assoc. reflexivity.
    + exists w1, (Normal tt), (passed (CommandCheckCalled c) m 0 k
                   ++ [CommandCheckCalled c (0 + k) m (Normal false)]).
      split; [now apply refused|]. split; [|reflexivity].
      intros l. now rewrite H.
    + exists w1, (Throw e), (passed (CommandCheckCalled c) m 0 k
                   ++ [CommandCheckCalled c (0 + k) m (Throw e)]).
      split; [now apply check_threw|]. split; [|reflexivity].
      intros l. now rewrite H.
  - apply String.eqb_neq in N.
    exists w, (Normal tt), []. split; [now apply skipped|]. split; [|reflexivity].
    intros l. unfold bind, ret. now rewrite app_nil_r.
Qed.

Lemma spied_loop (commands : list (Command.t World)) :
  forall (c : nat) (w : World),
  exists w1 r t,
    loop_shape b m name args c commands t r /\
    (forall l,
       Bot.command_loop (spy_bot b) m (spy_commands c commands) name args (w, l)
       = ((w1, l ++ t), r)) /\
    Bot.command_loop b m commands name args w = (w1, r).
Proof.
  induction commands as [|command rest IH]; intros c w.
  - exists w, (Normal tt), []. split; [constructor|]. split; [|reflexivity].
    intros l. simpl. unfold ret. now rewrite app_nil_r.
  - destruct (spied_iteration c command w) as (w1 & r & t & Sh & H & E).
    destruct r as [[]|e].
    + destruct (IH (S c) w1) as (w2 & r2 & u & Sh2 & H2 & E2).
      exists w2, r2, (t ++ u). split; [now apply loop_next|]. split.
      * intros l. simpl. unfold bind at 1. rewrite H, H2.
        now rewrite app_assoc.
      * simpl. unfold bind at 1. now rewrite E.
    + exists w1, (Throw e), t. split; [now apply loop_abort|]. split.
      * intros l. simpl. unfold bind at 1. now rewrite H.
      * simpl. unfold bind at 1. now rewrite E.
Qed.

End Spied.

(** The loop over the global checks is [performChecks] on their list, with
    the rest of the handler after it when it returns true. *)
Lemma global_checks_as_performChecks {World : Type} (m : Message)
    (cs : list (Check World)) (after : eff World unit) (w : World) :
  Bot.global_checks m cs after w
  = (passed <- Command.performChecks_from cs m ;;
     if passed then after else ret tt) w.
Proof.
  revert w. induction cs as [|check cs IH]; intros w; [reflexivity|].
  simpl. unfold bind at 1 2 3.
  destruct (check m w) as [w1 [[|]|e]]; simpl; [|reflexivity|reflexivity].
  rewrite IH. reflexivity.
Qed.

(** Every dispatch has the shape above, and the wrapped bot ends as the
    bot itself does, in the same world. *)
Lemma dispatch_has_shape {World : Type} (b : Bot.t World) (m : Message) (w : World) :
  dispatch_shape b m (Bot.verb (Bot.prefix b) (content m))
                 (Bot._parseArgs (content m)) (trace b m w) (outcome b m w) /\
  Bot._commandHandler b m w
  = (fst (fst (Bot._commandHandler (spy_bot b) m (w, []))), outcome b m w).
Proof.
  unfold trace, outcome, Bot._commandHandler. simpl.
  rewrite !global_checks_as_performChecks. unfold bind.
  destruct (spied_checks GlobalCheckCalled m (Bot.checks b) 0 w) as (t0 & Sh & H).
  rewrite H.
  destruct (Command.performChecks_from (Bot.checks b) m w) as [w1 r0] eqn:P.
  simpl in *.
  inversion Sh as [E1 E2|k Hk E1 E2|k e Hk E1 E2]; subst t0 r0.
  - destruct (spied_loop b m (Bot.verb (Bot.prefix b) (content m))
                (Bot._parseArgs (content m)) (Bot.commands b) 0 w1)
      as (w2 & r & u & Sh2 & H2 & E2).
    rewrite H2, E2. simpl. split; [now apply dispatched | reflexivity].
  - simpl. split; [now apply globally_refused | reflexivity].
  - simpl. split; [now apply global_threw | reflexivity].
Qed.


(** Wrapping the callbacks changes nothing for the bot: it ends as the
    wrapped bot does, in the same world. *)
Lemma spy_bot_transparent {World : Type} (b : Bot.t World) (m : Message) (w : World) :
  Bot._commandHandler b m w
  = (fst (fst (Bot._commandHandler (spy_bot b) m (w, []))),
     snd (Bot._commandHandler (spy_bot b) m (w, []))).
Proof. exact (proj2 (dispatch_has_shape b m w)). Qed.

(** *** Properties of a log that hold place by place *)

Lemma single_split {A : Type} (a x : A) (pre post : list A) :
  [a] = pre ++ x :: post -> pre = [] /\ x = a /\ post = [].
Proof.
  destruct pre as [|p pre]; simpl; intros H; injection H as -> H.
  - subst post. repeat split.
  - destruct pre; discriminate H.
Qed.

Lemma pair_split {A : Type} (a a' x : A) (pre post : list A) :
  [a; a'] = pre ++ x :: post ->
  (pre = [] /\ x = a /\ post = [a']) \/ (pre = [a] /\ x = a' /\ post = []).
Proof.
  destruct pre as [|p pre]; simpl; intros H; injection H as -> H.
  - left. subst post. repeat split.
  - right. apply single_split in H. destruct H as (-> & -> & ->). repeat split.
Qed.

Lemma everywhere_app (F : list Event -> Event -> list Event -> Prop)
    (a u : list Event) :
  stable F -> everywhere F a -> everywhere F u -> everywhere F (a ++ u).
Proof.
  intros St Ha Hu pre x post H.
  destruct (app_cons_split a u pre post x H) as [(post' & E & ->) | (pre' & -> & E)].
  - apply (St [] u pre x post'). now apply Ha.
  - rewrite <- (app_nil_r post). apply (St a [] pre' x post). now apply Hu.
Qed.

Lemma everywhere_each (F : list Event -> Event -> list Event -> Prop)
    (t : list Event) :
  (forall x, In x t -> forall pre post, F pre x post) -> everywhere F t.
Proof. intros H pre x post E. apply H. rewrite E. apply in_elt. Qed.

Lemma final_none (trigger : Event -> Prop)
    (G : Event -> list Event -> completion unit -> Prop)
    (t : list Event) (r : completion unit) :
  (forall x, In x t -> ~ trigger x) -> final trigger G t r.
Proof.
  intros N pre x post E T. exfalso. apply (N x); [|exact T].
  rewrite E. apply in_elt.
Qed.

Lemma final_app (trigger : Event -> Prop)
    (G : Event -> list Event -> completion unit -> Prop)
    (a u : list Event) (r : completion unit) :
  (forall x, In x a -> ~ trigger x) ->
  final trigger G u r -> final trigger G (a ++ u) r.
Proof.
  intros N Hu pre x post E T.
  destruct (app_split_right a u pre post x) as (pre' & -> & E'); [|exact E|].
  - intros I. exact (N x I T).
  - exact (Hu pre' x post E' T).
Qed.

(** *** The events of a dispatch *)

(** The checks that returned true are no other kind of event. *)
Lemma passed_only (event : nat -> Message -> completion bool -> Event)
    (m : Message) (i k : nat) (P : Event -> Prop) :
  (forall j, P (event j m (Normal true))) ->
  forall x, In x (passed event m i k) -> P x.
Proof. intros H x I. apply in_passed in I. destruct I as (j & _ & ->). apply H. Qed.

Lemma everywhere_passed (F : list Event -> Event -> list Event -> Prop)
    (event : nat -> Message -> completion bool -> Event)
    (m : Message) (i k : nat) :
  (forall j pre post, F pre (event j m (Normal true)) post) ->
  everywhere F (passed event m i k).
Proof.
  intros H. apply everywhere_each. intros x I pre post.
  apply in_passed in I. destruct I as (j & _ & ->). apply H.
Qed.

Lemma everywhere_single (F : list Event -> Event -> list Event -> Prop)
    (x : Event) :
  (forall pre post, F pre x post) -> everywhere F [x].
Proof. intros H. apply everywhere_each. intros y [<- | []]. exact H. Qed.

Lemma everywhere_nil (F : list Event -> Event -> list Event -> Prop) :
  everywhere F [].
Proof. apply everywhere_each. intros x []. Qed.

Section Events.
Context {World : Type}.
Variable b : Bot.t World.
Variable m : Message.
Variable name : string.
Variable args : list string.

Lemma iteration_events (c : nat) (command : Command.t World)
    (t : list Event) (r : completion unit) :
  iteration_shape b m name args c command t r ->
  forall x, In x t -> of_command m args c x.
Proof.
  intros Sh x I. destruct Sh; try apply in_app_or in I;
    try (destruct I as [I | I];
         [revert x I; apply passed_only; intros j; now split |]);
    simpl in I; repeat (destruct I as [<- | I]); simpl; try tauto.
Qed.

Lemma loop_events (c : nat) (commands : list (Command.t World))
    (t : list Event) (r : completion unit) :
  loop_shape b m name args c commands t r ->
  forall x, In x t -> from_command m args c x.
Proof.
  intros Sh. induction Sh as [c|c command rest t u r It Sh IH|c command rest t e It];
    intros x I.
  - destruct I.
  - apply in_app_or in I. destruct I as [I | I].
    + exists c. split; [lia | exact (iteration_events c command t _ It x I)].
    + destruct (IH x I) as (c' & L & O). exists c'. split; [lia | exact O].
  - exists c. split; [lia | exact (iteration_events c command t _ It x I)].
Qed.

End Events.


(** *** Errors thrown by checks *)

Ltac in_segment I :=
  apply in_app_or in I; destruct I as [I | I];
  [ apply in_passed in I; destruct I as (? & _ & ->)
  | simpl in I; repeat (destruct I as [<- | I]); try contradiction ].

Section CheckErrors.
Context {World : Type}.
Variable b : Bot.t World.
Variable m : Message.
Variable name : string.
Variable args : list string.

Lemma iteration_without_check_error (c : nat) (command : Command.t World)
    (t : list Event) :
  iteration_shape b m name args c command t (Normal tt) ->
  forall x, In x t -> ~ some_check_throws x.
Proof.
  intros Sh x I [e T]. inversion Sh; subst; try in_segment I; simpl in T;
    try contradiction.
Qed.

Lemma iteration_check_error_is_final (c : nat) (command : Command.t World)
    (t : list Event) (e : Error) :
  iteration_shape b m name args c command t (Throw e) ->
  final some_check_throws ends_run t (Throw e).
Proof.
  intros Sh. inversion Sh; subst.
  - apply final_app.
    + apply passed_only. intros j [e' T]. exact T.
    + intros pre x post E _. apply single_split in E.
      destruct E as (_ & -> & ->). split; [reflexivity|].
      intros e' T. simpl in T. now subst e'.
  - apply final_none. intros x I [e' T]. in_segment I; simpl in T; contradiction.
Qed.

Lemma loop_check_error_is_final (c : nat) (commands : list (Command.t World))
    (t : list Event) (r : completion unit) :
  loop_shape b m name args c commands t r ->
  final some_check_throws ends_run t r.
Proof.
  intros Sh. induction Sh as [c|c command rest t u r It Sh IH|c command rest t e It].
  - apply final_none. intros x [].
  - apply final_app; [|exact IH].
    exact (iteration_without_check_error c command t It).
  - exact (iteration_check_error_is_final c command t e It).
Qed.

Lemma dispatch_check_error_is_final (t : list Event) (r : completion unit) :
  dispatch_shape b m name args t r ->
  final some_check_throws ends_run t r.
Proof.
  intros Sh. destruct Sh as [k Hk|k e Hk|u r Sh].
  - apply final_none. intros x I [e' T]. in_segment I; simpl in T; contradiction.
  - apply final_app.
    + apply passed_only. intros j [e' T]. exact T.
    + intros pre x post E _. apply single_split in E.
      destruct E as (_ & -> & ->). split; [reflexivity|].
      intros e' T. simpl in T. now subst e'.
  - apply final_app.
    + apply passed_only. intros j [e' T]. exact T.
    + exact (loop_check_error_is_final 0 (Bot.commands b) u r Sh).
Qed.

End CheckErrors.

(** C5. An error thrown by a check, global or of a command, is not caught
    and does not reach the error handler: in the log of a dispatch the
    call of the check that threw is the last call made, so no error
    handler and no later check or command is called after it, and the
    dispatch ends by throwing that same error, for the wrapped bot and
    for the bot itself. *)
Theorem check_error_leaves_dispatch
    (World : Type) (b : Bot.t World) (m : Message) (w : World)
    (pre post : list Event) (x : Event) (e : Error) :
  trace b m w = pre ++ x :: post ->
  (exists i m', x = GlobalCheckCalled i m' (Throw e)) \/
  (exists c i m', x = CommandCheckCalled c i m' (Throw e)) ->
  post = [] /\
  outcome b m w = Throw e /\
  snd (Bot._commandHandler b m w) = Throw e.
Proof.
  intros E T.
  destruct (dispatch_has_shape b m w) as [Sh Er].
  assert (C : check_throws x e).
  { destruct T as [(i & m' & ->) | (c & i & m' & ->)]; reflexivity. }
  destruct (dispatch_check_error_is_final b m _ _ _ _ Sh pre x post E
              (ex_intro _ e C)) as [P R].
  split; [exact P|]. split; [exact (R e C)|].
  rewrite Er. simpl. exact (R e C).
Qed.

(** In the example script, a member who does not own the guild sends the
    command guarded by [isGuildOwner]: the check throws, nothing else is
    called, and the dispatch throws the [PermissionError]. *)
Lemma check_error_leaves_dispatch_example :
  @nil Event = [] /\
  outcome Example.bot (Example.from_member "$specialCommand") [] 
  = Throw Example.PermissionError /\
  snd (Bot._commandHandler Example.bot (Example.from_member "$specialCommand") [])
  = Throw Example.PermissionError.
Proof.
  apply (check_error_leaves_dispatch Example.World Example.bot
           (Example.from_member "$specialCommand") [] [] []
           (CommandCheckCalled 1 0 (Example.from_member "$specialCommand")
              (Throw Example.PermissionError))
           Example.PermissionError).
  - reflexivity.
  - right. exists 1, 0, (Example.from_member "$specialCommand"). reflexivity.
Defined.


(** *** Errors thrown by command functions *)

Lemma handler_follows_stable (m : Message) : stable (handler_follows m).
Proof.
  intros a u pre x post H. destruct x as [| |c m' args' [|e]|m' e r]; simpl in *;
    try exact I.
  - destruct H as (-> & r & post' & ->). split; [reflexivity|].
    exists r, (post' ++ u). reflexivity.
  - destruct H as (-> & pre' & c & args' & ->). split; [reflexivity|].
    exists (a ++ pre'), c, args'. now rewrite app_assoc.
Qed.

Section CommandErrors.
Context {World : Type}.
Variable b : Bot.t World.
Variable m : Message.
Variable name : string.
Variable args : list string.

Lemma iteration_handler_follows (c : nat) (command : Command.t World)
    (t : list Event) (r : completion unit) :
  iteration_shape b m name args c command t r ->
  everywhere (handler_follows m) t.
Proof.
  intros Sh. destruct Sh;
    try (apply everywhere_app;
         [ apply handler_follows_stable
         | apply everywhere_passed; intros j pre post; exact I
         | ]).
  - apply everywhere_nil.
  - apply everywhere_single. intros pre post. exact I.
  - apply everywhere_single. intros pre post. exact I.
  - apply everywhere_single. intros pre post. exact I.
  - intros pre x post E. apply pair_split in E.
    destruct E as [(-> & -> & ->) | (-> & -> & ->)]; simpl.
    + split; [reflexivity|]. exists r, []. reflexivity.
    + split; [reflexivity|]. exists [], c, args. reflexivity.
Qed.

Lemma loop_handler_follows (c : nat) (commands : list (Command.t World))
    (t : list Event) (r : completion unit) :
  loop_shape b m name args c commands t r ->
  everywhere (handler_follows m) t.
Proof.
  intros Sh. induction Sh as [c|c command rest t u r It Sh IH|c command rest t e It].
  - apply everywhere_nil.
  - apply everywhere_app; [apply handler_follows_stable | | exact IH].
    exact (iteration_handler_follows c command t _ It).
  - exact (iteration_handler_follows c command t _ It).
Qed.

Lemma dispatch_handler_follows (t : list Event) (r : completion unit) :
  dispatch_shape b m name args t r ->
  everywhere (handler_follows m) t.
Proof.
  intros Sh. destruct Sh as [k Hk|k e Hk|u r Sh];
    (apply everywhere_app;
     [ apply handler_follows_stable
     | apply everywhere_passed; intros j pre post; exact I
     | ]).
  - apply everywhere_single. intros pre post. exact I.
  - apply everywhere_single. intros pre post. exact I.
  - exact (loop_handler_follows 0 (Bot.commands b) u r Sh).
Qed.

(** With the default error handler, the error of a command function ends
    the dispatch. *)
Hypothesis default : Bot.errorHandler b = defaultErrorHandler.

Lemma iteration_without_command_error (c : nat) (command : Command.t World)
    (t : list Event) :
  iteration_shape b m name args c command t (Normal tt) ->
  forall x, In x t -> ~ command_throws x.
Proof.
  intros Sh x I T. inversion Sh as [N E1 E2|k N Hk E1 E2| |N E1 E2|e r w w1 N EH E1 E2];
    subst.
  - destruct I.
  - in_segment I; exact T.
  - in_segment I; exact T.
  - rewrite default in EH. discriminate EH.
Qed.

Lemma iteration_command_error_is_final (c : nat) (command : Command.t World)
    (t : list Event) (e : Error) :
  iteration_shape b m name args c command t (Throw e) ->
  final command_throws (rethrown m) t (Throw e).
Proof.
  intros Sh. inversion Sh as [| |k e' N Hk E1 E2| |e0 r w w1 N EH E1 E2]; subst.
  - apply final_none. intros x I T. in_segment I; exact T.
  - rewrite default in EH. injection EH as _ EH.
    apply final_app; [apply passed_only; intros j T; exact T|].
    intros pre x post E T. apply pair_split in E.
    destruct E as [(-> & -> & ->) | (-> & -> & ->)]; simpl.
    + rewrite <- EH. split; reflexivity.
    + exact I.
Qed.

Lemma loop_command_error_is_final (c : nat) (commands : list (Command.t World))
    (t : list Event) (r : completion unit) :
  loop_shape b m name args c commands t r ->
  final command_throws (rethrown m) t r.
Proof.
  intros Sh. induction Sh as [c|c command rest t u r It Sh IH|c command rest t e It].
  - apply final_none. intros x [].
  - apply final_app; [|exact IH].
    exact (iteration_without_command_error c command t It).
  - exact (iteration_command_error_is_final c command t e It).
Qed.

Lemma dispatch_command_error_is_final (t : list Event) (r : completion unit) :
  dispatch_shape b m name args t r ->
  final command_throws (rethrown m) t r.
Proof.
  intros Sh. destruct Sh as [k Hk|k e Hk|u r Sh].
  - apply final_none. intros x I T. in_segment I; exact T.
  - apply final_none. intros x I T. in_segment I; exact T.
  - apply final_app; [apply passed_only; intros j T; exact T|].
    exact (loop_command_error_is_final 0 (Bot.commands b) u r Sh).
Qed.

End CommandErrors.

(** *** A global check that returns false *)

Lemma dispatch_globally_refused {World : Type} (b : Bot.t World) (m : Message)
    (name : string) (args : list string) (t : list Event) (r : completion unit) :
  dispatch_shape b m name args t r ->
  forall i m',
    In (GlobalCheckCalled i m' (Normal false)) t ->
    r = Normal tt /\
    forall x, In x t -> exists j r', x = GlobalCheckCalled j m r'.
Proof.
  intros Sh i m' I. destruct Sh as [k Hk|k e Hk|u r Sh].
  - split; [reflexivity|]. intros x Ix. in_segment Ix; eexists _, _; reflexivity.
  - exfalso. apply in_app_or in I. destruct I as [I | [I | []]].
    + apply in_passed in I. destruct I as (j & _ & I). discriminate I.
    + discriminate I.
  - exfalso. apply in_app_or in I. destruct I as [I | I].
    + apply in_passed in I. destruct I as (j & _ & I). discriminate I.
    + destruct (loop_events b m name args 0 _ u r Sh _ I) as (c & _ & O).
      exact O.
Qed.

(** *** The error a dispatch ends with, and what follows a caught error *)

Lemma passed_then_last (event : nat -> Message -> completion bool -> Event)
    (m : Message) (k : nat) (x y : Event) :
  passed event m 0 k ++ [x; y] = (passed event m 0 k ++ [x]) ++ [y].
Proof. now rewrite <- app_assoc. Qed.

Section LastCall.
Context {World : Type}.
Variable b : Bot.t World.
Variable m : Message.
Variable name : string.
Variable args : list string.

Lemma iteration_throws_last (c : nat) (command : Command.t World)
    (t : list Event) (e : Error) :
  iteration_shape b m name args c command t (Throw e) -> throws_last m t e.
Proof.
  intros Sh. inversion Sh; subst.
  - eexists _, _. split; [reflexivity|]. right; left. eexists _, _. reflexivity.
  - rewrite passed_then_last. eexists _, _. split; [reflexivity|].
    right; right. eexists. reflexivity.
Qed.

Lemma throws_last_app (t u : list Event) (e : Error) :
  throws_last m u e -> throws_last m (t ++ u) e.
Proof.
  intros (pre & x & -> & H). exists (t ++ pre), x.
  split; [now rewrite app_assoc | exact H].
Qed.

Lemma loop_throws_last (c : nat) (commands : list (Command.t World))
    (t : list Event) (r : completion unit) :
  loop_shape b m name args c commands t r ->
  forall e, r = Throw e -> throws_last m t e.
Proof.
  intros Sh. induction Sh as [c|c command rest t u r It Sh IH|c command rest t e' It];
    intros e R.
  - discriminate R.
  - apply throws_last_app. now apply IH.
  - injection R as ->. exact (iteration_throws_last c command t e It).
Qed.

Lemma dispatch_throws_last (t : list Event) (r : completion unit) :
  dispatch_shape b m name args t r ->
  forall e, r = Throw e -> throws_last m t e.
Proof.
  intros Sh e R. destruct Sh as [k Hk|k e' Hk|u r Sh].
  - discriminate R.
  - injection R as ->. eexists _, _. split; [reflexivity|]. left.
    eexists. reflexivity.
  - apply throws_last_app. exact (loop_throws_last 0 _ u r Sh e R).
Qed.

End LastCall.

(** The loop over two lists of commands, one after the other. *)
Lemma command_loop_app {World : Type} (b : Bot.t World) (m : Message)
    (name : string) (args : list string)
    (cs ds : list (Command.t World)) (w : World) :
  Bot.command_loop b m (cs ++ ds) name args w
  = (_ <- Bot.command_loop b m cs name args ;;
     Bot.command_loop b m ds name args) w.
Proof.
  revert w. induction cs as [|command cs IH]; intros w; [reflexivity|].
  simpl. unfold bind.
  destruct (Bot.dispatch_to b m command name args w) as [w1 [[]|e]].
  - rewrite IH. reflexivity.
  - reflexivity.
Qed.


(** The dispatch when an earlier part of the registry ends without an
    error and the function of the next matching command throws: the error
    handler is called with the message and the error in the world the
    function left, and the dispatch goes on with the rest of the registry
    from the world the handler leaves when the handler returns, and throws
    the error of the handler when it throws. *)
Lemma dispatch_after_caught_error {World : Type} (b : Bot.t World) (m : Message)
    (before after : list (Command.t World)) (command : Command.t World)
    (w wg w0 w1 w2 w3 : World) (e : Error) (r : completion unit) :
  Bot.commands b = before ++ command :: after ->
  Command.performChecks_from (Bot.checks b) m w = (wg, Normal true) ->
  Bot.command_loop b m before (Bot.verb (Bot.prefix b) (content m))
    (Bot._parseArgs (content m)) wg = (w0, Normal tt) ->
  Command.name command = Bot.verb (Bot.prefix b) (content m) ->
  Command.performChecks command m w0 = (w1, Normal true) ->
  Function.call (Command.commandFunction command) m
    (Bot._parseArgs (content m)) w1 = (w2, Throw e) ->
  Bot.errorHandler b m e w2 = (w3, r) ->
  Bot._commandHandler b m w
  = match r with
    | Normal _ =>
        Bot.command_loop b m after (Bot.verb (Bot.prefix b) (content m))
          (Bot._parseArgs (content m)) w3
    | Throw e' => (w3, Throw e')
    end.
Proof.
  intros Hc Hg Hb Hn Hp Hf Hh. unfold Bot._commandHandler.
  rewrite global_checks_as_performChecks. unfold bind. rewrite Hg, Hc.
  rewrite command_loop_app. unfold bind. rewrite Hb.
  simpl Bot.command_loop. unfold bind, Bot.dispatch_to, bind.
  rewrite Hn, String.eqb_refl, Hp.
  unfold Bot.invoke, try_catch. rewrite Hf, Hh.
  destruct r as [[]|e']; reflexivity.
Qed.

(** The dispatch when the run of the global checks ends with false. *)
Lemma dispatch_after_global_refusal {World : Type} (b : Bot.t World) (m : Message)
    (w w1 : World) :
  Command.performChecks_from (Bot.checks b) m w = (w1, Normal false) ->
  Bot._commandHandler b m w = (w1, Normal tt) /\
  outcome b m w = Normal tt /\
  exists k,
    trace b m w
    = passed GlobalCheckCalled m 0 k ++ [GlobalCheckCalled k m (Normal false)].
Proof.
  intros P. split; [|split].
  - unfold Bot._commandHandler. rewrite global_checks_as_performChecks.
    unfold bind. now rewrite P.
  - unfold outcome, Bot._commandHandler. simpl.
    rewrite global_checks_as_performChecks. unfold bind.
    destruct (spied_checks GlobalCheckCalled m (Bot.checks b) 0 w) as (t0 & Sh & H).
    rewrite H, P. reflexivity.
  - unfold trace, Bot._commandHandler. simpl.
    rewrite global_checks_as_performChecks. unfold bind.
    destruct (spied_checks GlobalCheckCalled m (Bot.checks b) 0 w) as (t0 & Sh & H).
    rewrite H. rewrite P in Sh |- *. simpl in *.
    inversion Sh as [|k Hk E1 E2|]; subst. exists k. reflexivity.
Qed.

(** C4. The dispatcher catches the error of a command function and gives
    it to the error handler. In the log of any dispatch, a call of a
    command function that threw is followed at once by a call of the error
    handler with the message of the dispatch and the error thrown, and
    every call of the error handler comes at once after such a call: the
    handler is called once for each invocation that threw and never
    otherwise. The default error handler throws the error it is given, and
    it is the handler of a bot constructed with none; with it the dispatch
    ends there, by throwing that error. When a global check returns false
    the dispatch returns with no error, and its log holds calls of global
    checks only: no command function and no error handler is called; this
    is so whenever the run of the global checks ends with false, in the
    world that run leaves. The error of a command function does not leave
    the dispatch by itself: a dispatch that ends with an error made its
    last call to a check or to the error handler, and that call threw the
    error. When the error handler returns, the dispatch goes on with the
    commands registered after the one that threw, from the world the
    handler leaves; when it throws, the dispatch throws its error. *)
Theorem command_error_reaches_error_handler :
  forall (World : Type) (b : Bot.t World) (m : Message) (w : World),
    (forall pre c m' args e post,
       trace b m w = pre ++ CommandCalled c m' args (Throw e) :: post ->
       m' = m /\ exists r post', post = ErrorHandlerCalled m e r :: post') /\
    (forall pre m' e r post,
       trace b m w = pre ++ ErrorHandlerCalled m' e r :: post ->
       m' = m /\
       exists pre' c args, pre = pre' ++ [CommandCalled c m args (Throw e)]) /\
    (forall e w0, @defaultErrorHandler World m e w0 = (w0, Throw e)) /\
    (forall options bot,
       Bot.constructor options = Normal bot ->
       Bot.opt_errorHandler options = None ->
       Bot.errorHandler bot = @defaultErrorHandler World) /\
    (Bot.errorHandler b = defaultErrorHandler ->
     forall pre c m' args e post,
       trace b m w = pre ++ CommandCalled c m' args (Throw e) :: post ->
       post = [ErrorHandlerCalled m e (Throw e)] /\
       outcome b m w = Throw e /\
       snd (Bot._commandHandler b m w) = Throw e) /\
    (forall i m',
       In (GlobalCheckCalled i m' (Normal false)) (trace b m w) ->
       outcome b m w = Normal tt /\
       snd (Bot._commandHandler b m w) = Normal tt /\
       forall x, In x (trace b m w) -> exists j r, x = GlobalCheckCalled j m r) /\
    (forall w1,
       Command.performChecks_from (Bot.checks b) m w = (w1, Normal false) ->
       Bot._commandHandler b m w = (w1, Normal tt) /\
       outcome b m w = Normal tt /\
       exists k,
         trace b m w
         = passed GlobalCheckCalled m 0 k
             ++ [GlobalCheckCalled k m (Normal false)]) /\
    (forall e,
       snd (Bot._commandHandler b m w) = Throw e ->
       throws_last m (trace b m w) e) /\
    (forall (before after : list (Command.t World)) (command : Command.t World)
            (wg w0 w1 w2 w3 : World) (e : Error) (r : completion unit),
       Bot.commands b = before ++ command :: after ->
       Command.performChecks_from (Bot.checks b) m w = (wg, Normal true) ->
       Bot.command_loop b m before (Bot.verb (Bot.prefix b) (content m))
         (Bot._parseArgs (content m)) wg = (w0, Normal tt) ->
       Command.name command = Bot.verb (Bot.prefix b) (content m) ->
       Command.performChecks command m w0 = (w1, Normal true) ->
       Function.call (Command.commandFunction command) m
         (Bot._parseArgs (content m)) w1 = (w2, Throw e) ->
       Bot.errorHandler b m e w2 = (w3, r) ->
       Bot._commandHandler b m w
       = match r with
         | Normal _ =>
             Bot.command_loop b m after (Bot.verb (Bot.prefix b) (content m))
               (Bot._parseArgs (content m)) w3
         | Throw e' => (w3, Throw e')
         end).
Proof.
  intros World b m w.
  destruct (dispatch_has_shape b m w) as [Sh Er].
  pose proof (dispatch_handler_follows b m _ _ _ _ Sh) as HF.
  split; [|split; [|split; [|split; [|split; [|split; [|split; [|split]]]]]]].
  - intros pre c m' args e post E. exact (HF _ _ _ E).
  - intros pre m' e r post E. exact (HF _ _ _ E).
  - reflexivity.
  - intros options bot C N. unfold Bot.constructor in C.
    destruct (match Bot.opt_prefix options with
              | Some p => negb (JS.truthy p) || JS.includes p JS.space
              | None => true
              end); [discriminate C|].
    injection C as <-. simpl. now rewrite N.
  - intros D pre c m' args e post E.
    pose proof (dispatch_command_error_is_final b m _ _ D _ _ Sh _ _ _ E I) as [P R].
    split; [exact P|]. split; [exact R|]. rewrite Er. exact R.
  - intros i m' Hi.
    destruct (dispatch_globally_refused b m _ _ _ _ Sh i m' Hi) as [R A].
    split; [exact R|]. split; [rewrite Er; exact R | exact A].
  - intros w1. apply dispatch_after_global_refusal.
  - intros e R. rewrite Er in R. simpl in R.
    exact (dispatch_throws_last b m _ _ _ _ Sh e R).
  - intros before after command wg w0 w1 w2 w3 e r.
    apply dispatch_after_caught_error.
Qed.

(** Three dispatches of the example bots. The first command throws and the
    error handler returns after sending the message of the error: the
    dispatch goes on with the second command, from the channel that holds
    that message. A global check returns false: the dispatch returns in
    the world the check left and the log holds that call alone. The first
    command throws and the bot has the default error handler: the handler
    is called with the error and the dispatch throws it. *)
Lemma command_error_examples :
  Bot._commandHandler Example.reporting_bot (Example.from_member "$ping") []
  = (["boom"; "pong"], Normal tt) /\
  (Bot._commandHandler (Bot.addCheck Example.two_pings [Example.nobody])
     (Example.from_member "$ping") [] = ([], Normal tt) /\
   outcome (Bot.addCheck Example.two_pings [Example.nobody])
     (Example.from_member "$ping") [] = Normal tt /\
   exists k,
     trace (Bot.addCheck Example.two_pings [Example.nobody])
       (Example.from_member "$ping") []
     = passed GlobalCheckCalled (Example.from_member "$ping") 0 k
         ++ [GlobalCheckCalled k (Example.from_member "$ping") (Normal false)]) /\
  ([ErrorHandlerCalled (Example.from_member "$ping") Example.boom
      (Throw Example.boom)]
   = [ErrorHandlerCalled (Example.from_member "$ping") Example.boom
        (Throw Example.boom)] /\
   outcome Example.rethrowing_bot (Example.from_member "$ping") []
   = Throw Example.boom /\
   snd (Bot._commandHandler Example.rethrowing_bot (Example.from_member "$ping") [])
   = Throw Example.boom).
Proof.
  split; [|split].
  - exact (proj2 (proj2 (proj2 (proj2 (proj2 (proj2 (proj2 (proj2
             (command_error_reaches_error_handler Example.World
                Example.reporting_bot (Example.from_member "$ping") []))))))))
             [] [Command.Make "ping" EmptyString [] Example.ping]
             (Command.Make "ping" EmptyString [] Example.failing)
             [] [] [] [] ["boom"] Example.boom (Normal tt)
             eq_refl eq_refl eq_refl eq_refl eq_refl eq_refl eq_refl).
  - apply (proj1 (proj2 (proj2 (proj2 (proj2 (proj2 (proj2
             (command_error_reaches_error_handler Example.World
                (Bot.addCheck Example.two_pings [Example.nobody])
                (Example.from_member "$ping") []))))))) []).
    reflexivity.
  - apply (proj1 (proj2 (proj2 (proj2 (proj2
             (command_error_reaches_error_handler Example.World
                Example.rethrowing_bot (Example.from_member "$ping") [])))))
             eq_refl [] 0 (Example.from_member "$ping") [] Example.boom).
    reflexivity.
Defined.

(** The first command throws and the error handler sends the message of
    the error: the handler is called once, the loop goes on to the second
    command, and both texts are sent. *)
Example reporting_bot_dispatch :
  trace Example.reporting_bot (Example.from_member "$ping") []
  = [CommandCalled 0 (Example.from_member "$ping") [] (Throw Example.boom);
     ErrorHandlerCalled (Example.from_member "$ping") Example.boom (Normal tt);
     CommandCalled 1 (Example.from_member "$ping") [] (Normal tt)] /\
  Bot._commandHandler Example.reporting_bot (Example.from_member "$ping") []
  = (["boom"; "pong"], Normal tt).
Proof. split; reflexivity. Qed.

(** A global check returns false: nothing else is called. *)
Example refused_dispatch :
  trace (Bot.addCheck Example.two_pings [Example.nobody])
        (Example.from_member "$ping") []
  = [GlobalCheckCalled 0 (Example.from_member "$ping") (Normal false)] /\
  Bot._commandHandler (Bot.addCheck Example.two_pings [Example.nobody])
                      (Example.from_member "$ping") []
  = ([], Normal tt).
Proof. split; reflexivity. Qed.


(** *** The commands a dispatch invokes *)

Lemma invoked_passed (event : nat -> Message -> completion bool -> Event)
    (m : Message) (i k : nat) :
  (forall j, invoked [event j m (Normal true)] = []) ->
  invoked (passed event m i k) = [].
Proof.
  intros H. revert i. induction k as [|k IH]; intros i; [reflexivity|].
  rewrite passed_succ.
  change (event i m (Normal true) :: passed event m (S i) k)
    with ([event i m (Normal true)] ++ passed event m (S i) k).
  now rewrite invoked_app, H, IH.
Qed.

Section Invoked.
Context {World : Type}.
Variable b : Bot.t World.
Variable m : Message.
Variable name : string.
Variable args : list string.

Lemma iteration_invoked (c : nat) (command : Command.t World)
    (t : list Event) (r : completion unit) :
  iteration_shape b m name args c command t r ->
  invoked t = [] \/ invoked t = [c].
Proof.
  intros Sh. destruct Sh; try rewrite invoked_app;
    try rewrite invoked_passed by reflexivity; simpl; auto.
Qed.

Lemma loop_invoked_sorted (c : nat) (commands : list (Command.t World))
    (t : list Event) (r : completion unit) :
  loop_shape b m name args c commands t r ->
  StronglySorted lt (invoked t) /\ Forall (le c) (invoked t).
Proof.
  intros Sh. induction Sh as [c|c command rest t u r It Sh IH|c command rest t e It].
  - split; constructor.
  - destruct IH as [S1 F1]. rewrite invoked_app.
    assert (F2 : Forall (le c) (invoked u)).
    { eapply Forall_impl; [|exact F1]. intros a. simpl. lia. }
    destruct (iteration_invoked c command t _ It) as [-> | ->]; simpl.
    + split; assumption.
    + split.
      * constructor; [exact S1|]. eapply Forall_impl; [|exact F1].
        intros a. simpl. lia.
      * constructor; [lia | exact F2].
  - destruct (iteration_invoked c command t _ It) as [-> | ->].
    + split; constructor.
    + split; repeat constructor.
Qed.




End Invoked.




Example two_pings_dispatch :
  invoked (trace Example.two_pings (Example.from_member "$ping a b") []) = [0; 1] /\
  Bot._commandHandler Example.two_pings (Example.from_member "$ping a b") []
  = (["pong"; "a b"], Normal tt).
Proof. split; reflexivity. Qed.


End DispatchFacts.

(* ================================================================= *)
(** * Further properties of the tokenizer *)

Module TokenizerMore.
Import JS Tokenizer Lines Further TokenizerFacts.
Local Open Scope string_scope.

(** *** Escaping *)

Lemma scan_escape (w : string) :
  forall (a : list string) (b : string),
    scan (Vars a b false false false) (escape w) = Vars a (b ++ w) false false false.
Proof.
  induction w as [|c w IH]; intros a b; simpl.
  - now rewrite append_empty_r.
  - destruct (special c) eqn:Sp; simpl.
    + rewrite step_backslash, step_escaped, IH. now rewrite push_char_assoc.
    + unfold special in Sp. apply orb_false_elim in Sp. destruct Sp as [Sp Hb].
      apply orb_false_elim in Sp. destruct Sp as [Hq Hs].
      rewrite step_ordinary by (try assumption; now rewrite Hs).
      rewrite IH. now rewrite push_char_assoc.
Qed.

Lemma tokenize_escaped_from (tokens : list string) :
  forall a : list string,
    tokens_truthy tokens ->
    finish (scan (Vars a EmptyString false false false)
                 (join (map escape tokens) (chr space)))
    = (a ++ tokens)%list.
Proof.
  induction tokens as [|w ws IH]; intros a H.
  - simpl. unfold finish; simpl. now rewrite app_nil_r.
  - inversion H as [|? ? Hw Hws]; subst.
    destruct ws as [|w' ws].
    + simpl. rewrite scan_escape. unfold finish; simpl. now rewrite Hw.
    + change (join (map escape (w :: w' :: ws)) (chr space))
        with (escape w ++ chr space ++ join (map escape (w' :: ws)) (chr space)).
      rewrite scan_app, scan_escape. simpl append at 1.
      change (chr space ++ join (map escape (w' :: ws)) (chr space))
        with (String space (join (map escape (w' :: ws)) (chr space))).
      simpl scan. rewrite step_space_outside, Hw.
      rewrite IH by assumption. now rewrite <- app_assoc.
Qed.

(** X1. Any list of tokens, none empty, can be written as a command line:
    with a backslash before every space, quote and backslash of each token
    and one space between the tokens, the tokenizer gives the list back. *)
Theorem tokenize_escaped_round_trip (tokens : list string) :
  Forall (fun token => token <> EmptyString) tokens ->
  tokenize (join (map escape tokens) (chr space)) = tokens.
Proof.
  intros H. apply (tokenize_escaped_from tokens []).
  eapply Forall_impl; [|exact H]. intros t. apply truthy_true_iff.
Qed.

Lemma tokenize_escaped_round_trip_example :
  tokenize (join (map escape ["say"; "a b"; DQ ++ "x"; BS]) (chr space))
  = ["say"; "a b"; DQ ++ "x"; BS].
Proof.
  apply tokenize_escaped_round_trip. repeat constructor; discriminate.
Defined.


(** *** A command with no argument *)

Lemma split_without (s : string) (c : ascii) :
  includes s c = false -> split s c = [s].
Proof.
  induction s as [|d s IH]; intros H; [reflexivity|].
  simpl in H. apply orb_false_elim in H. destruct H as [H1 H2].
  simpl. now rewrite H1, IH.
Qed.

(** X2. A content that is one word, with or without spaces after it, has
    no argument: [_parseArgs] gives the empty array. *)
Theorem parseArgs_of_bare_command (word : string) (n : nat) :
  includes word space = false ->
  Bot._parseArgs (word ++ spaces n) = [].
Proof.
  intros H. unfold Bot._parseArgs. destruct n as [|n].
  - simpl spaces. rewrite append_empty_r. unfold remainder.
    now rewrite split_without.
  - simpl spaces. rewrite remainder_after_word by assumption.
    unfold tokenize, initial. now rewrite scan_spaces.
Qed.

Lemma parseArgs_of_bare_command_example :
  Bot._parseArgs ("$hello" ++ spaces 2) = [].
Proof. apply parseArgs_of_bare_command. reflexivity. Defined.

(** *** One turn of the loop, in general *)

(** What a turn of the loop does to the variables, by the character read:
    it appends the character to the buffer, or pushes and empties the
    buffer, or opens a quote, or notes a backslash. *)
Lemma step_cases (a : list string) (b : string) (q e : bool) (c : ascii) :
  (e = true /\
   step (Vars a b q e false) c = Vars a (push_char b c) q false false) \/
  (e = false /\ c = dquote /\ q = true /\
   step (Vars a b q e false) c
   = Vars (if truthy b then (a ++ [b])%list else a) EmptyString false false false) \/
  (e = false /\ c = dquote /\ q = false /\
   step (Vars a b q e false) c = Vars a b true false false) \/
  (e = false /\ c = space /\ q = false /\
   step (Vars a b q e false) c
   = Vars (if truthy b then (a ++ [b])%list else a) EmptyString false false false) \/
  (e = false /\ c = bslash /\
   step (Vars a b q e false) c = Vars a b q true false) \/
  (e = false /\ Ascii.eqb c dquote = false /\ Ascii.eqb c bslash = false /\
   (c = space -> q = true) /\
   step (Vars a b q e false) c = Vars a (push_char b c) q false false).
Proof.
  destruct e; [left; split; reflexivity | right].
  destruct (Ascii.eqb c dquote) eqn:Hq.
  { apply Ascii.eqb_eq in Hq; subst c. destruct q.
    - left. split; [reflexivity|]. split; [reflexivity|]. split; [reflexivity|].
      apply step_closing_quote.
    - right; left. split; [reflexivity|]. split; [reflexivity|].
      split; reflexivity. }
  right; right.
  destruct (Ascii.eqb c space) eqn:Hs.
  { apply Ascii.eqb_eq in Hs; subst c. destruct q.
    - right; right. split; [reflexivity|]. split; [reflexivity|].
      split; [reflexivity|]. split; [reflexivity|]. apply step_space_inside.
    - left. split; [reflexivity|]. split; [reflexivity|]. split; [reflexivity|].
      apply step_space_outside. }
  right.
  destruct (Ascii.eqb c bslash) eqn:Hb.
  { apply Ascii.eqb_eq in Hb; subst c. left. split; [reflexivity|].
    split; [reflexivity|]. apply step_backslash. }
  right. split; [reflexivity|]. split; [reflexivity|]. split; [reflexivity|]. split.
  - intros ->. discriminate Hs.
  - apply step_ordinary; try assumption. now rewrite Hs.
Qed.

(** *** The size of the tokens *)

Lemma length_append (s t : string) :
  String.length (s ++ t) = String.length s + String.length t.
Proof. induction s as [|c s IH]; simpl; [reflexivity | now rewrite IH]. Qed.

Lemma total_length_app (a b : list string) :
  total_length (a ++ b)%list = total_length a + total_length b.
Proof. induction a as [|t a IH]; simpl; [reflexivity | rewrite IH; lia]. Qed.

Lemma total_length_flush (a : list string) (b : string) :
  total_length (if truthy b then (a ++ [b])%list else a)
  = total_length a + String.length b.
Proof.
  destruct b as [|c b]; simpl truthy; cbv iota.
  - simpl. lia.
  - rewrite total_length_app. simpl. lia.
Qed.

Lemma kept_step (a : list string) (b : string) (q e : bool) (c : ascii) :
  kept (step (Vars a b q e false) c) <= S (kept (Vars a b q e false)).
Proof.
  destruct (step_cases a b q e c)
    as [(_ & E) | [(_ & _ & _ & E) | [(_ & _ & _ & E) | [(_ & _ & _ & E)
       | [(_ & _ & E) | (_ & _ & _ & _ & E)]]]]];
    rewrite E; unfold kept, push_char; simpl;
    rewrite ?total_length_flush, ?length_append; simpl; lia.
Qed.

Lemma kept_scan (s : string) :
  forall v, ready v = false -> kept (scan v s) <= kept v + String.length s.
Proof.
  induction s as [|c s IH]; intros v R; simpl; [lia|].
  specialize (IH (step v c) (ready_step v c)).
  destruct v as [a b q e r]; simpl in R; subst r.
  pose proof (kept_step a b q e c). lia.
Qed.

Lemma count_le_total (tokens : list string) :
  tokens_truthy tokens -> List.length tokens <= total_length tokens.
Proof.
  induction 1 as [|t ts Ht _ IH]; simpl; [lia|].
  destruct t; [discriminate Ht | simpl; lia].
Qed.

(** X3. The tokens hold no more characters than the remainder they are
    read from, and there are no more tokens than characters in them: the
    tokenizer drops characters (separators, quotes, backslashes) and adds
    none. *)
Theorem tokens_no_longer_than_input (argStr : string) :
  total_length (tokenize argStr) <= String.length argStr /\
  List.length (tokenize argStr) <= total_length (tokenize argStr).
Proof.
  split.
  - pose proof (kept_scan argStr initial eq_refl) as K.
    unfold tokenize, finish. unfold kept in K. simpl in K.
    destruct (truthy (buffer (scan initial argStr))) eqn:T.
    + rewrite total_length_app. simpl. lia.
    + lia.
  - apply count_le_total, tokens_truthy_finish, tokens_truthy_scan. constructor.
Qed.


(** *** What the tokens never hold *)

Lemma includes_push_char (b : string) (c d : ascii) :
  includes (push_char b c) d = includes b d || Ascii.eqb c d.
Proof.
  unfold push_char. induction b as [|x b IH]; simpl.
  - now rewrite orb_false_r.
  - rewrite IH. now rewrite orb_assoc.
Qed.

Lemma Forall_flush (P : string -> Prop) (a : list string) (b : string) :
  Forall P a -> P b -> Forall P (if truthy b then (a ++ [b])%list else a).
Proof.
  intros Ha Hb. destruct (truthy b); [|exact Ha].
  apply Forall_app. split; [exact Ha | now constructor].
Qed.

(** With no backslash read, no escape is pending and neither the buffer
    nor a token holds a quote or a backslash. *)
Lemma unmarked_scan (s : string) :
  forall (a : list string) (b : string) (q : bool),
    includes s bslash = false ->
    unmarked b -> Forall unmarked a ->
    exists a' b' q',
      scan (Vars a b q false false) s = Vars a' b' q' false false /\
      unmarked b' /\ Forall unmarked a'.
Proof.
  induction s as [|c s IH]; intros a b q H Hb Ha.
  - exists a, b, q. repeat split; assumption || apply Hb.
  - simpl in H. apply orb_false_elim in H. destruct H as [H1 H2]. simpl scan.
    destruct (step_cases a b q false c)
      as [(E & _) | [(_ & _ & _ & E) | [(_ & _ & _ & E) | [(_ & _ & _ & E)
         | [(_ & -> & _) | (_ & Cq & Cb & _ & E)]]]]];
      try discriminate; rewrite E; apply IH; try assumption.
    + split; reflexivity.
    + now apply Forall_flush.
    + split; reflexivity.
    + now apply Forall_flush.
    + destruct Hb as [Hb1 Hb2]. split; rewrite includes_push_char.
      * now rewrite Hb1, Ascii.eqb_sym, Ascii.eqb_sym, Cq.
      * now rewrite Hb2, Cb.
Qed.

(** With no backslash and no quote read, no quote is open and neither the
    buffer nor a token holds a space. *)
Lemma spaceless_scan (s : string) :
  forall (a : list string) (b : string),
    includes s bslash = false ->
    includes s dquote = false ->
    includes b space = false ->
    Forall (fun token => includes token space = false) a ->
    exists a' b',
      scan (Vars a b false false false) s = Vars a' b' false false false /\
      includes b' space = false /\
      Forall (fun token => includes token space = false) a'.
Proof.
  induction s as [|c s IH]; intros a b H Hq Hb Ha.
  - exists a, b. repeat split; assumption.
  - simpl in H, Hq. apply orb_false_elim in H, Hq.
    destruct H as [H1 H2], Hq as [Hq1 Hq2]. simpl scan.
    destruct (step_cases a b false false c)
      as [(E & _) | [(_ & _ & E & _) | [(_ & -> & _) | [(_ & _ & _ & E)
         | [(_ & -> & _) | (_ & _ & _ & Cs & E)]]]]];
      try discriminate; rewrite E; apply IH; try assumption.
    + reflexivity.
    + now apply Forall_flush.
    + rewrite includes_push_char, Hb. simpl.
      destruct (Ascii.eqb c space) eqn:Es; [|reflexivity].
      apply Ascii.eqb_eq in Es. discriminate (Cs Es).
Qed.

(** X4. Quotes and backslashes reach a token only when escaped: for a
    remainder with no backslash in it, no token holds a quote or a
    backslash; when it has no quote either, no token holds a space. *)
Theorem unescaped_marks_never_reach_tokens (argStr : string) :
  includes argStr bslash = false ->
  Forall unmarked (tokenize argStr) /\
  (includes argStr dquote = false ->
   Forall (fun token => includes token space = false) (tokenize argStr)).
Proof.
  intros H. split.
  - destruct (unmarked_scan argStr [] EmptyString false H)
      as (a & b & q & E & Hb & Ha); [split; reflexivity | constructor |].
    unfold tokenize, initial. rewrite E. unfold finish; simpl.
    now apply Forall_flush.
  - intros Hq.
    destruct (spaceless_scan argStr [] EmptyString H Hq)
      as (a & b & E & Hb & Ha); [reflexivity | constructor |].
    unfold tokenize, initial. rewrite E. unfold finish; simpl.
    now apply Forall_flush.
Qed.

Lemma unescaped_marks_never_reach_tokens_example :
  Forall unmarked (tokenize ("say " ++ DQ ++ "a b" ++ DQ ++ " c")) /\
  (includes ("say " ++ DQ ++ "a b" ++ DQ ++ " c") dquote = false ->
   Forall (fun token => includes token space = false)
          (tokenize ("say " ++ DQ ++ "a b" ++ DQ ++ " c"))).
Proof. apply unescaped_marks_never_reach_tokens. reflexivity. Defined.

(** *** Spaces around the arguments *)

(** X5. Spaces before the arguments and after them change nothing, when
    the arguments leave no quote open and no escape pending. *)
Theorem spaces_around_are_ignored (n k : nat) (argStr : string) :
  escaped (scan initial argStr) = false ->
  inQuote (scan initial argStr) = false ->
  tokenize (spaces n ++ argStr ++ spaces k) = tokenize argStr.
Proof.
  intros He Hq. unfold tokenize.
  rewrite scan_app. change (scan initial (spaces n))
    with (scan (Vars [] EmptyString false false false) (spaces n)).
  rewrite scan_spaces. fold initial.
  rewrite scan_app, (scan_initial_shape argStr), He, Hq.
  destruct k as [|k]; [reflexivity|].
  simpl scan. rewrite step_space_outside, scan_spaces.
  unfold finish; simpl.
  destruct (truthy (buffer (scan initial argStr))); reflexivity.
Qed.

Lemma spaces_around_are_ignored_example :
  tokenize (spaces 2 ++ "a b" ++ spaces 3) = tokenize "a b".
Proof. apply spaces_around_are_ignored; reflexivity. Defined.

End TokenizerMore.

(* ================================================================= *)
(** * Further properties of the commands *)

Module CommandMore.
Import JS Eff Signature CommandFacts.
Local Open Scope string_scope.

(** *** Checks added after construction *)

Lemma performChecks_from_app {World : Type} (cs ds : list (Check World))
    (m : Message) (w : World) :
  Command.performChecks_from (cs ++ ds)%list m w
  = (passed <- Command.performChecks_from cs m ;;
     if passed then Command.performChecks_from ds m else ret false) w.
Proof.
  revert w. induction cs as [|check cs IH]; intros w; [reflexivity|].
  simpl. unfold bind at 1 2 3.
  destruct (check m w) as [w1 [[|]|e]]; simpl; [|reflexivity|reflexivity].
  rewrite IH. reflexivity.
Qed.

(** X6. Checks added with [addCheck] come after the checks the command
    has, in the order they are given: [performChecks] runs the earlier
    checks first and the added ones only when all of those return true.
    Adding in two calls is adding the two lists in one, and the name, the
    usage and the function stay as they are. *)
Theorem addCheck_appends_checks :
  forall (World : Type) (command : Command.t World)
         (first second : list (Check World)) (m : Message) (w : World),
    Command.performChecks (Command.addCheck command first) m w
    = (passed <- Command.performChecks command m ;;
       if passed then Command.performChecks_from first m else ret false) w /\
    Command.addCheck (Command.addCheck command first) second
    = Command.addCheck command (first ++ second)%list /\
    Command.name (Command.addCheck command first) = Command.name command /\
    Command.usage (Command.addCheck command first) = Command.usage command /\
    Command.commandFunction (Command.addCheck command first)
    = Command.commandFunction command.
Proof.
  intros World command first second m w. split; [|split].
  - apply performChecks_from_app.
  - unfold Command.addCheck. simpl. now rewrite app_assoc.
  - repeat split.
Qed.

(** *** A parenthesis that opens the source text *)

Lemma find_parens_none (rest : string) :
  forall i stop : nat,
    includes rest lparen = false ->
    Command.find_parens rest i 0 stop = (0, stop).
Proof.
  induction rest as [|c rest IH]; intros i stop H; [reflexivity|].
  simpl in H. apply orb_false_elim in H. destruct H as [H1 H2].
  simpl. rewrite H1. simpl. now apply IH.
Qed.

(** X7. The loop of [_parseArgs] does not see a parenthesis at index 0,
    where the parameter list of an arrow function stands: the usage is
    taken from the next opening parenthesis of the text, a call in the body
    of the function, and it is empty when there is none. *)
Theorem leading_parenthesis_is_skipped :
  (forall rest : string,
     includes rest lparen = false ->
     Command.parse_signature (String lparen rest) = EmptyString) /\
  (forall head params tail : string,
     includes head lparen = false ->
     includes params rparen = false ->
     Command.parse_signature
       (String lparen (declaration head params tail))
     = slice_from (parameter_names params) 1).
Proof.
  split.
  - intros rest H. unfold Command.parse_signature. simpl Command.find_parens.
    rewrite find_parens_none by assumption. destruct rest; reflexivity.
  - intros head params tail Hh Hp.
    unfold Command.parse_signature, declaration. simpl Command.find_parens.
    rewrite find_parens_before by assumption. simpl Command.find_parens.
    rewrite find_parens_inside by (try assumption; discriminate).
    unfold parameter_names. do 2 f_equal. unfold slice.
    f_equal.
    replace (S (S (String.length head)) + String.length params
             - (S (String.length head) + 1))
      with (String.length params) by lia.
    replace (S (String.length head) + 1)
      with (S (String.length head + 1)) by lia.
    cbn [substring]. rewrite substring_skip.
    change (String lparen (params ++ String rparen tail))
      with (chr lparen ++ (params ++ String rparen tail)).
    change 1 with (String.length (chr lparen) + 0) at 1.
    rewrite substring_skip. apply substring_prefix.
Qed.

(** An arrow function that sends its second parameter: the usage comes
    from the call in its body. *)
Lemma leading_parenthesis_is_skipped_example :
  Command.parse_signature
    (String lparen (declaration "msg, text) => msg.channel.send" "msg, text" EmptyString))
  = slice_from (parameter_names "msg, text") 1.
Proof.
  apply (proj2 leading_parenthesis_is_skipped); reflexivity.
Defined.

End CommandMore.

(* ================================================================= *)
(** * Further properties of the bot *)

Module BotMore.
Import JS Eff Spy Log Further CommandFacts DispatchFacts.

(** *** The prefix and the verb *)

Lemma prefix_nil (s : string) : String.prefix EmptyString s = true.
Proof. destruct s; reflexivity. Qed.

Lemma prefix_cons (a d : ascii) (p s : string) :
  String.prefix (String a p) (String d s) = true <->
  a = d /\ String.prefix p s = true.
Proof.
  simpl. destruct (ascii_dec a d) as [E | N].
  - split; [intros H; now split | intros [_ H]; exact H].
  - split; [discriminate | intros [E _]; contradiction].
Qed.

Lemma split_not_nil (s : string) (c : ascii) : split s c <> [].
Proof.
  destruct s as [|d s]; simpl; [discriminate|].
  destruct (Ascii.eqb d c); [discriminate|].
  destruct (split s c); discriminate.
Qed.

Lemma prefix_of_first_word (p : string) :
  forall s : string,
    includes p space = false ->
    String.prefix p s = true ->
    String.prefix p (first (split s space)) = true.
Proof.
  induction p as [|a p IH]; intros s Hp H.
  - apply prefix_nil.
  - destruct s as [|d s]; [discriminate H|].
    apply prefix_cons in H. destruct H as [<- H].
    simpl in Hp. apply orb_false_elim in Hp. destruct Hp as [Ha Hp].
    simpl split. rewrite Ha.
    specialize (IH s Hp H).
    destruct (split s space) as [|w ws] eqn:E.
    + exfalso. exact (split_not_nil s space E).
    + unfold first in *. simpl hd in *.
      apply prefix_cons. split; [reflexivity | exact IH].
Qed.

Lemma prefix_then_rest (p : string) :
  forall w : string,
    String.prefix p w = true ->
    (p ++ slice_from w (String.length p))%string = w.
Proof.
  induction p as [|a p IH]; intros w H.
  - simpl. unfold slice_from. rewrite Nat.sub_0_r.
    clear H. induction w as [|c w IHw]; [reflexivity|].
    simpl. now rewrite IHw.
  - destruct w as [|d w]; [discriminate H|].
    apply prefix_cons in H. destruct H as [<- H].
    simpl. f_equal. apply (IH w H).
Qed.

Lemma constructor_prefix {World : Type} (options : Bot.Options World)
    (b : Bot.t World) :
  Bot.constructor options = Normal b ->
  Bot.opt_prefix options = Some (Bot.prefix b) /\
  truthy (Bot.prefix b) = true /\
  includes (Bot.prefix b) space = false.
Proof.
  unfold Bot.constructor. destruct (Bot.opt_prefix options) as [p|]; [|discriminate].
  destruct (truthy p) eqn:T; simpl; [|discriminate].
  destruct (includes p space) eqn:I; simpl; [discriminate|].
  intros H. injection H as <-. simpl. repeat split; assumption.
Qed.

(** X8. A bot that the constructor returns has a prefix that is not empty
    and has no space, the one given; for such a bot and a content that
    starts with the prefix, as [on_message] requires, the verb is the
    first word of the content without the prefix at its start. *)
Theorem verb_is_first_word_without_prefix
    (World : Type) (options : Bot.Options World) (b : Bot.t World) (m : Message) :
  Bot.constructor options = Normal b ->
  startsWith (content m) (Bot.prefix b) = true ->
  Bot.opt_prefix options = Some (Bot.prefix b) /\
  truthy (Bot.prefix b) = true /\
  includes (Bot.prefix b) space = false /\
  (Bot.prefix b ++ Bot.verb (Bot.prefix b) (content m))%string
  = first (split (content m) space).
Proof.
  intros C S. destruct (constructor_prefix options b C) as (O & T & I).
  split; [exact O|]. split; [exact T|]. split; [exact I|].
  unfold startsWith in S.
  pose proof (prefix_of_first_word _ _ I S) as P.
  unfold Bot.verb. rewrite remove_first_eq, P.
  now apply prefix_then_rest.
Qed.

Lemma verb_is_first_word_without_prefix_example :
  Bot.opt_prefix (Bot.MakeOptions (World:=Example.World) None None None (Some "$"))
  = Some "$" /\
  truthy "$" = true /\
  includes "$" space = false /\
  ("$" ++ Bot.verb "$" (content (Example.from_member "$ping a b")))%string
  = first (split (content (Example.from_member "$ping a b")) space).
Proof.
  apply (verb_is_first_word_without_prefix Example.World
           (Bot.MakeOptions None None None (Some "$"))
           (Bot.Make defaultErrorHandler [] [] "$")
           (Example.from_member "$ping a b")); reflexivity.
Defined.

(** *** Commands and global checks added after construction *)

Lemma command_loop_same_handler {World : Type} (b b' : Bot.t World) (m : Message)
    (name : string) (args : list string) (cs : list (Command.t World)) (w : World) :
  Bot.errorHandler b' = Bot.errorHandler b ->
  Bot.command_loop b' m cs name args w = Bot.command_loop b m cs name args w.
Proof.
  intros H. revert w. induction cs as [|command cs IH]; intros w; [reflexivity|].
  assert (D : Bot.dispatch_to b' m command name args w
              = Bot.dispatch_to b m command name args w).
  { unfold Bot.dispatch_to, Bot.invoke. now rewrite H. }
  simpl. unfold bind. rewrite D.
  destruct (Bot.dispatch_to b m command name args w) as [w1 [[]|e]];
    [apply IH | reflexivity].
Qed.

Lemma global_checks_app {World : Type} (m : Message)
    (cs ds : list (Check World)) (after : eff World unit) (w : World) :
  Bot.global_checks m (cs ++ ds) after w
  = Bot.global_checks m cs (Bot.global_checks m ds after) w.
Proof.
  revert w. induction cs as [|check cs IH]; intros w; [reflexivity|].
  simpl. unfold bind.
  destruct (check m w) as [w1 [[|]|e]]; simpl; [apply IH | reflexivity | reflexivity].
Qed.

Lemma global_checks_ext {World : Type} (m : Message) (cs : list (Check World))
    (after after' : eff World unit) :
  (forall w, after w = after' w) ->
  forall w, Bot.global_checks m cs after w = Bot.global_checks m cs after' w.
Proof.
  intros H. induction cs as [|check cs IH]; intros w; [apply H|].
  simpl. unfold bind.
  destruct (check m w) as [w1 [[|]|e]]; simpl; [apply IH | reflexivity | reflexivity].
Qed.

(** X9. Commands added with [addCommand] are tried after the commands the
    bot has, in the order they are given, and only when the loop over the
    earlier ones ends without an error; global checks added with
    [addCheck] run after the global checks the bot has, and only when
    those all return true. *)
Theorem added_commands_and_checks_come_last :
  forall (World : Type) (b : Bot.t World) (m : Message) (w : World)
         (commands : list (Command.t World)) (checks : list (Check World)),
    Bot._commandHandler (Bot.addCommand b commands) m w
    = Bot.global_checks m (Bot.checks b)
        (_ <- Bot.command_loop b m (Bot.commands b)
                (Bot.verb (Bot.prefix b) (content m))
                (Bot._parseArgs (content m)) ;;
         Bot.command_loop b m commands
           (Bot.verb (Bot.prefix b) (content m))
           (Bot._parseArgs (content m))) w /\
    Bot._commandHandler (Bot.addCheck b checks) m w
    = Bot.global_checks m (Bot.checks b)
        (Bot.global_checks m checks
           (Bot.command_loop b m (Bot.commands b)
              (Bot.verb (Bot.prefix b) (content m))
              (Bot._parseArgs (content m)))) w.
Proof.
  intros World b m w commands checks. unfold Bot._commandHandler. simpl. split.
  - apply global_checks_ext. intros w'.
    rewrite (command_loop_same_handler b) by reflexivity.
    apply command_loop_app.
  - rewrite global_checks_app.
    apply global_checks_ext. intros w'.
    apply global_checks_ext. intros w''.
    apply command_loop_same_handler. reflexivity.
Qed.


(** *** A verb that no command has *)

Section NoMatch.
Context {World : Type}.
Variable b : Bot.t World.
Variable m : Message.
Variable name : string.
Variable args : list string.

Lemma command_loop_without_match (commands : list (Command.t World)) (w : World) :
  (forall command, In command commands -> Command.name command <> name) ->
  Bot.command_loop b m commands name args w = (w, Normal tt).
Proof.
  induction commands as [|command rest IH]; intros H; [reflexivity|].
  simpl. unfold bind, Bot.dispatch_to, bind.
  assert (N : String.eqb (Command.name command) name = false).
  { apply String.eqb_neq, H. now left. }
  rewrite N. simpl. apply IH. intros c I. apply H. now right.
Qed.

Lemma loop_shape_without_match (c : nat) (commands : list (Command.t World))
    (t : list Event) (r : completion unit) :
  loop_shape b m name args c commands t r ->
  (forall command, In command commands -> Command.name command <> name) ->
  t = [] /\ r = Normal tt.
Proof.
  intros Sh.
  induction Sh as [c|c command rest t u r It Sh IH|c command rest t e It]; intros H.
  - split; reflexivity.
  - destruct IH as [-> ->]; [intros c' I; apply H; now right|].
    assert (N : Command.name command <> name) by (apply H; now left).
    inversion It; subst; try contradiction. split; reflexivity.
  - assert (N : Command.name command <> name) by (apply H; now left).
    inversion It; subst; contradiction.
Qed.

End NoMatch.

(** X10. A message whose verb is the name of no registered command calls
    the global checks and nothing else: no check of a command, no command
    function, no error handler. The dispatch is the run of the global
    checks alone. *)
Theorem unknown_verb_calls_nothing
    (World : Type) (b : Bot.t World) (m : Message) (w : World) :
  (forall command,
     In command (Bot.commands b) ->
     Command.name command <> Bot.verb (Bot.prefix b) (content m)) ->
  (forall x, In x (trace b m w) -> is_global_check x) /\
  Bot._commandHandler b m w = Bot.global_checks m (Bot.checks b) (ret tt) w.
Proof.
  intros H. split.
  - destruct (dispatch_has_shape b m w) as [Sh _].
    intros x I. destruct Sh as [k Hk|k e Hk|u r Sh].
    + in_segment I; exact Logic.I.
    + in_segment I; exact Logic.I.
    + destruct (loop_shape_without_match b m _ _ 0 _ u r Sh H) as [-> _].
      rewrite app_nil_r in I. apply in_passed in I.
      destruct I as (j & _ & ->). exact Logic.I.
  - unfold Bot._commandHandler. apply global_checks_ext. intros w'.
    now apply command_loop_without_match.
Qed.

Lemma unknown_verb_calls_nothing_example :
  (forall x,
     In x (trace Example.two_pings (Example.from_member "$pong") []) ->
     is_global_check x) /\
  Bot._commandHandler Example.two_pings (Example.from_member "$pong") []
  = Bot.global_checks (Example.from_member "$pong")
      (Bot.checks Example.two_pings) (ret tt) [].
Proof.
  apply unknown_verb_calls_nothing.
  intros command [<- | [<- | []]]; discriminate.
Defined.

(** *** The checks a dispatch evaluates *)

Section CheckCalls.
Context {World : Type}.
Variable b : Bot.t World.
Variable m : Message.
Variable name : string.
Variable args : list string.

Lemma iteration_check_calls (c : nat) (command : Command.t World)
    (t : list Event) (r : completion unit) :
  iteration_shape b m name args c command t r ->
  forall c' i m' r',
    In (CommandCheckCalled c' i m' r') t ->
    c' = c /\ m' = m /\ Command.name command = name /\
    i < List.length (Command.checks command).
Proof.
  intros Sh c' i m' r' I.
  destruct (iteration_events b m name args c command t r Sh _ I) as (-> & ->).
  split; [reflexivity|]. split; [reflexivity|].
  destruct Sh as [N|k N Hk|k e N Hk|N|e r w w1 N EH].
  - destruct I.
  - split; [exact N|]. apply in_app_or in I. destruct I as [I | [I | []]].
    + apply in_passed in I. destruct I as (j & Hj & I). injection I as -> _. lia.
    + injection I as -> _. exact Hk.
  - split; [exact N|]. apply in_app_or in I. destruct I as [I | [I | []]].
    + apply in_passed in I. destruct I as (j & Hj & I). injection I as -> _. lia.
    + injection I as -> _. exact Hk.
  - split; [exact N|]. apply in_app_or in I. destruct I as [I | [I | []]].
    + apply in_passed in I. destruct I as (j & Hj & I). injection I as -> _. lia.
    + discriminate I.
  - split; [exact N|]. apply in_app_or in I. destruct I as [I | [I | [I | []]]].
    + apply in_passed in I. destruct I as (j & Hj & I). injection I as -> _. lia.
    + discriminate I.
    + discriminate I.
Qed.

Lemma loop_check_calls (c0 : nat) (commands : list (Command.t World))
    (t : list Event) (r : completion unit) :
  loop_shape b m name args c0 commands t r ->
  forall c i m' r',
    In (CommandCheckCalled c i m' r') t ->
    m' = m /\ c0 <= c /\
    exists command,
      nth_error commands (c - c0) = Some command /\
      Command.name command = name /\
      i < List.length (Command.checks command).
Proof.
  intros Sh.
  induction Sh as [c0|c0 command rest t u r It Sh IH|c0 command rest t e It];
    intros c i m' r' I.
  - destruct I.
  - apply in_app_or in I. destruct I as [I | I].
    + destruct (iteration_check_calls c0 command t _ It _ _ _ _ I)
        as (-> & -> & N & L).
      split; [reflexivity|]. split; [lia|]. exists command.
      rewrite Nat.sub_diag. repeat split; assumption.
    + destruct (IH _ _ _ _ I) as (-> & L & command' & E & N & Li).
      split; [reflexivity|]. split; [lia|]. exists command'.
      replace (c - c0) with (S (c - S c0)) by lia.
      repeat split; assumption.
  - destruct (iteration_check_calls c0 command t _ It _ _ _ _ I)
      as (-> & -> & N & L).
    split; [reflexivity|]. split; [lia|]. exists command.
    rewrite Nat.sub_diag. repeat split; assumption.
Qed.

End CheckCalls.

(** X11. A check of a command is called only when the name of the command
    is the verb: every call of a command check in the log is a check the
    command at that index has, of a registered command with the name of
    the verb, called with the message of the dispatch. The checks of the
    other commands are never evaluated. *)
Theorem checks_of_other_commands_never_run
    (World : Type) (b : Bot.t World) (m : Message) (w : World)
    (c i : nat) (m' : Message) (r : completion bool) :
  In (CommandCheckCalled c i m' r) (trace b m w) ->
  m' = m /\
  exists command,
    nth_error (Bot.commands b) c = Some command /\
    Command.name command = Bot.verb (Bot.prefix b) (content m) /\
    i < List.length (Command.checks command).
Proof.
  intros I. destruct (dispatch_has_shape b m w) as [Sh _].
  assert (L : exists u r0,
             loop_shape b m (Bot.verb (Bot.prefix b) (content m))
                        (Bot._parseArgs (content m)) 0 (Bot.commands b) u r0 /\
             In (CommandCheckCalled c i m' r) u).
  { destruct Sh as [k Hk|k e Hk|u r0 Sh].
    - exfalso. apply in_app_or in I. destruct I as [I | [I | []]].
      + apply in_passed in I. destruct I as (j & _ & I). discriminate I.
      + discriminate I.
    - exfalso. apply in_app_or in I. destruct I as [I | [I | []]].
      + apply in_passed in I. destruct I as (j & _ & I). discriminate I.
      + discriminate I.
    - exists u, r0. split; [exact Sh|].
      apply in_app_or in I. destruct I as [I | I]; [|exact I].
      apply in_passed in I. destruct I as (j & _ & I). discriminate I. }
  destruct L as (u & r0 & Sh' & Iu).
  destruct (loop_check_calls b m _ _ 0 _ u r0 Sh' _ _ _ _ Iu)
    as (-> & _ & command & E & N & Li).
  split; [reflexivity|]. exists command. rewrite Nat.sub_0_r in E.
  repeat split; assumption.
Qed.

Lemma checks_of_other_commands_never_run_example :
  Example.from_member "$specialCommand" = Example.from_member "$specialCommand" /\
  exists command,
    nth_error (Bot.commands Example.bot) 1 = Some command /\
    Command.name command
    = Bot.verb (Bot.prefix Example.bot)
               (content (Example.from_member "$specialCommand")) /\
    0 < List.length (Command.checks command).
Proof.
  apply (checks_of_other_commands_never_run Example.World Example.bot
           (Example.from_member "$specialCommand") [] 1 0
           (Example.from_member "$specialCommand")
           (Throw Example.PermissionError)).
  left. reflexivity.
Defined.


(** *** Errors that leave a dispatch *)

Section Thrown.
Context {World : Type}.
Variable b : Bot.t World.
Variable m : Message.
Variable name : string.
Variable args : list string.

Lemma iteration_without_handler_error (c : nat) (command : Command.t World)
    (t : list Event) :
  iteration_shape b m name args c command t (Normal tt) ->
  forall x, In x t -> ~ handler_throws x.
Proof.
  intros Sh x I T. inversion Sh; subst; try in_segment I; simpl in T;
    try contradiction.
Qed.

Lemma iteration_handler_error_is_final (c : nat) (command : Command.t World)
    (t : list Event) (e : Error) :
  iteration_shape b m name args c command t (Throw e) ->
  final handler_throws handler_ends_run t (Throw e).
Proof.
  intros Sh. inversion Sh; subst.
  - apply final_none. intros x I T. in_segment I; exact T.
  - apply final_app; [apply passed_only; intros j T; exact T|].
    intros pre x post E T. apply pair_split in E.
    destruct E as [(-> & -> & ->) | (-> & -> & ->)]; simpl.
    + exact I.
    + split; reflexivity.
Qed.

Lemma loop_handler_error_is_final (c : nat) (commands : list (Command.t World))
    (t : list Event) (r : completion unit) :
  loop_shape b m name args c commands t r ->
  final handler_throws handler_ends_run t r.
Proof.
  intros Sh. induction Sh as [c|c command rest t u r It Sh IH|c command rest t e It].
  - apply final_none. intros x [].
  - apply final_app; [|exact IH].
    exact (iteration_without_handler_error c command t It).
  - exact (iteration_handler_error_is_final c command t e It).
Qed.

Lemma dispatch_handler_error_is_final (t : list Event) (r : completion unit) :
  dispatch_shape b m name args t r ->
  final handler_throws handler_ends_run t r.
Proof.
  intros Sh. destruct Sh as [k Hk|k e Hk|u r Sh].
  - apply final_none. intros x I T. in_segment I; exact T.
  - apply final_none. intros x I T. in_segment I; exact T.
  - apply final_app; [apply passed_only; intros j T; exact T|].
    exact (loop_handler_error_is_final 0 (Bot.commands b) u r Sh).
Qed.

End Thrown.

(** X12. An error thrown by the error handler is not caught: the call of
    the handler that threw is the last call of the dispatch, so no later
    command is tried, and the dispatch ends by throwing the error of the
    handler. *)
Theorem error_handler_error_leaves_dispatch
    (World : Type) (b : Bot.t World) (m : Message) (w : World)
    (pre post : list Event) (m' : Message) (e e' : Error) :
  trace b m w = pre ++ ErrorHandlerCalled m' e (Throw e') :: post ->
  post = [] /\
  outcome b m w = Throw e' /\
  snd (Bot._commandHandler b m w) = Throw e'.
Proof.
  intros E. destruct (dispatch_has_shape b m w) as [Sh Er].
  destruct (dispatch_handler_error_is_final b m _ _ _ _ Sh pre _ post E I)
    as [P R].
  split; [exact P|]. split; [exact R|]. rewrite Er. exact R.
Qed.

(** In the example script the error handler itself throws, a [TypeError],
    when a command function throws a [PermissionError]. *)
Lemma error_handler_error_leaves_dispatch_example :
  @nil Event = [] /\
  outcome (Bot.addCommand Example.bot [Command.Make "denied" EmptyString [] denied])
          (Example.from_member "$denied") []
  = Throw (TypeError "error.message is not a function") /\
  snd (Bot._commandHandler
         (Bot.addCommand Example.bot [Command.Make "denied" EmptyString [] denied])
         (Example.from_member "$denied") [])
  = Throw (TypeError "error.message is not a function").
Proof.
  apply (error_handler_error_leaves_dispatch Example.World
           (Bot.addCommand Example.bot [Command.Make "denied" EmptyString [] denied])
           (Example.from_member "$denied") []
           [CommandCalled 2 (Example.from_member "$denied") []
              (Throw Example.PermissionError)]
           [] (Example.from_member "$denied") Example.PermissionError
           (TypeError "error.message is not a function")).
  reflexivity.
Defined.

(** X13. A dispatch throws only what a check or the error handler threw:
    when it ends with an error, the last call it made is a global check, a
    check of a command or the error handler, called with the message, and
    that call threw this error. The error of a command function leaves
    the dispatch only through the error handler. *)
Theorem dispatch_error_comes_from_check_or_handler
    (World : Type) (b : Bot.t World) (m : Message) (w : World) (e : Error) :
  snd (Bot._commandHandler b m w) = Throw e ->
  throws_last m (trace b m w) e.
Proof.
  intros R. destruct (dispatch_has_shape b m w) as [Sh Er].
  rewrite Er in R. simpl in R.
  exact (dispatch_throws_last b m _ _ _ _ Sh e R).
Qed.

Lemma dispatch_error_comes_from_check_or_handler_example :
  throws_last (Example.from_member "$specialCommand")
    (trace Example.bot (Example.from_member "$specialCommand") [])
    Example.PermissionError.
Proof.
  apply dispatch_error_comes_from_check_or_handler. reflexivity.
Defined.


(** *** The global checks come first *)

Lemma passed_global_calls (m : Message) (k : nat) :
  forall i, passed GlobalCheckCalled m i k
            = global_calls m i (repeat (Normal true) k).
Proof.
  induction k as [|k IH]; intros i; [reflexivity|].
  rewrite passed_succ, IH. reflexivity.
Qed.

Lemma global_calls_app (m : Message) (rs rs' : list (completion bool)) :
  forall i, global_calls m i (rs ++ rs')
            = global_calls m i rs ++ global_calls m (i + List.length rs) rs'.
Proof.
  induction rs as [|r rs IH]; intros i; simpl.
  - now rewrite Nat.add_0_r.
  - rewrite IH. do 3 f_equal. lia.
Qed.

(** X14. The global checks are called before anything else, in the order
    of their list and each at most once: the log of a dispatch is the
    calls of the global checks at indexes 0, 1, ..., then calls that are
    no global check; and a call follows the global checks only when every
    global check was called and returned true. *)
Theorem global_checks_run_first :
  forall (World : Type) (b : Bot.t World) (m : Message) (w : World),
  exists rs u,
    trace b m w = global_calls m 0 rs ++ u /\
    List.length rs <= List.length (Bot.checks b) /\
    (forall x, In x u -> ~ is_global_check x) /\
    (u <> [] -> rs = repeat (Normal true) (List.length (Bot.checks b))).
Proof.
  intros World b m w. destruct (dispatch_has_shape b m w) as [Sh _].
  destruct Sh as [k Hk|k e Hk|u r Sh].
  - exists (repeat (Normal true) k ++ [Normal false]), [].
    split; [|split; [|split]].
    + rewrite global_calls_app, <- passed_global_calls, repeat_length, app_nil_r.
      reflexivity.
    + rewrite length_app, repeat_length. simpl. lia.
    + intros x [].
    + intros N. now contradiction N.
  - exists (repeat (Normal true) k ++ [Throw e]), [].
    split; [|split; [|split]].
    + rewrite global_calls_app, <- passed_global_calls, repeat_length, app_nil_r.
      reflexivity.
    + rewrite length_app, repeat_length. simpl. lia.
    + intros x [].
    + intros N. now contradiction N.
  - exists (repeat (Normal true) (List.length (Bot.checks b))), u.
    split; [|split; [|split]].
    + now rewrite passed_global_calls.
    + rewrite repeat_length. lia.
    + intros x Ix G.
      destruct (loop_events b m _ _ 0 _ u r Sh x Ix) as (c & _ & O).
      destruct x; simpl in G, O; contradiction.
    + reflexivity.
Qed.

(** *** A command that a check refuses *)

Section Refused.
Context {World : Type}.
Variable b : Bot.t World.
Variable m : Message.
Variable name : string.
Variable args : list string.

Lemma iteration_refused_not_invoked (c : nat) (command : Command.t World)
    (t : list Event) (r : completion unit) :
  iteration_shape b m name args c command t r ->
  forall c' i m',
    In (CommandCheckCalled c' i m' (Normal false)) t -> invoked t = [].
Proof.
  intros Sh c' i m' I.
  destruct Sh as [N|k N Hk|k e N Hk|N|e r w w1 N EH].
  - reflexivity.
  - rewrite invoked_app, invoked_passed by reflexivity. reflexivity.
  - rewrite invoked_app, invoked_passed by reflexivity. reflexivity.
  - exfalso. apply in_app_or in I. destruct I as [I | [I | []]].
    + apply in_passed in I. destruct I as (j & _ & I). discriminate I.
    + discriminate I.
  - exfalso. apply in_app_or in I. destruct I as [I | [I | [I | []]]].
    + apply in_passed in I. destruct I as (j & _ & I). discriminate I.
    + discriminate I.
    + discriminate I.
Qed.

Lemma loop_refused_not_invoked (c0 : nat) (commands : list (Command.t World))
    (t : list Event) (r : completion unit) :
  loop_shape b m name args c0 commands t r ->
  forall c i m',
    In (CommandCheckCalled c i m' (Normal false)) t -> ~ In c (invoked t).
Proof.
  intros Sh.
  induction Sh as [c0|c0 command rest t u r It Sh IH|c0 command rest t e It];
    intros c i m' I J.
  - destruct I.
  - rewrite invoked_app in J. apply in_app_or in I.
    destruct (loop_invoked_sorted b m name args (S c0) rest u r Sh) as [_ F].
    rewrite Forall_forall in F.
    destruct I as [I | I].
    + destruct (iteration_events b m name args c0 command t _ It _ I) as (-> & _).
      rewrite (iteration_refused_not_invoked c0 command t _ It _ _ _ I) in J.
      simpl in J. specialize (F _ J). lia.
    + destruct (loop_events b m name args (S c0) rest u r Sh _ I) as (c' & L & <- & _).
      apply in_app_or in J. destruct J as [J | J].
      * destruct (iteration_invoked b m name args c0 command t _ It) as [E | E];
          rewrite E in J; simpl in J; [contradiction | lia].
      * exact (IH _ _ _ I J).
  - rewrite (iteration_refused_not_invoked c0 command t _ It _ _ _ I) in J.
    destruct J.
Qed.

End Refused.

(** X15. A command one of whose checks returned false is not invoked in
    that dispatch: when the log holds a call of a check of the command at
    index [c] that returned false, it holds no call of the function of
    that command. *)
Theorem refused_command_is_not_invoked
    (World : Type) (b : Bot.t World) (m : Message) (w : World)
    (c i : nat) (m' : Message) :
  In (CommandCheckCalled c i m' (Normal false)) (trace b m w) ->
  ~ In c (invoked (trace b m w)).
Proof.
  intros I. destruct (dispatch_has_shape b m w) as [Sh _].
  destruct Sh as [k Hk|k e Hk|u r Sh].
  - exfalso. apply in_app_or in I. destruct I as [I | [I | []]].
    + apply in_passed in I. destruct I as (j & _ & I). discriminate I.
    + discriminate I.
  - exfalso. apply in_app_or in I. destruct I as [I | [I | []]].
    + apply in_passed in I. destruct I as (j & _ & I). discriminate I.
    + discriminate I.
  - rewrite invoked_app, invoked_passed by reflexivity. simpl.
    apply in_app_or in I. destruct I as [I | I].
    + apply in_passed in I. destruct I as (j & _ & I). discriminate I.
    + exact (loop_refused_not_invoked b m _ _ 0 _ u r Sh _ _ _ I).
Qed.

Lemma refused_command_is_not_invoked_example :
  ~ In 2 (invoked (trace (Bot.addCommand Example.two_pings [Example.guarded_command])
                         (Example.from_member "$guarded") [])).
Proof.
  apply (refused_command_is_not_invoked Example.World
           (Bot.addCommand Example.two_pings [Example.guarded_command])
           (Example.from_member "$guarded") [] 2 1
           (Example.from_member "$guarded")).
  right. left. reflexivity.
Defined.

End BotMore.

(* ================================================================= *)
(** * The example script *)

Module ExampleFacts.
Import JS Eff Further TokenizerFacts.

Lemma first_token_truthy (str : string) :
  match Bot._parseArgs str with
  | arg1 :: _ => truthy arg1 = true
  | [] => True
  end.
Proof.
  assert (H : Lines.tokens_truthy (Bot._parseArgs str)).
  { apply tokens_truthy_finish, tokens_truthy_scan. constructor. }
  destruct (Bot._parseArgs str); [exact I | now inversion H].
Qed.

(** X16. In the example script the guarded command answers to the verb
    [specialCommand], the explicit name it was given, and not to the name
    of its function. For the owner of the guild the bot sends the first
    argument, or [Nothing] when there is none. For anyone else
    [isGuildOwner] throws: nothing is sent, the error handler of the
    script is not called, and the dispatch throws the [PermissionError]. *)
Theorem example_guarded_command (m : Message) (w : Example.World) :
  Bot.verb "$" (content m) = "specialCommand" ->
  Bot._commandHandler Example.bot m w
  = if owner_wrote m
    then (w ++ [("The owner : " ++ hd "Nothing" (Bot._parseArgs (content m)))%string],
          Normal tt)
    else (w, Throw Example.PermissionError).
Proof.
  intros V. unfold Bot._commandHandler, owner_wrote. simpl Bot.prefix. rewrite V.
  pose proof (first_token_truthy (content m)) as T.
  unfold Example.bot, Bot.addCommand. simpl.
  unfold bind, Bot.dispatch_to, bind. simpl.
  unfold Command.performChecks. simpl. unfold bind, Example.isGuildOwner.
  destruct (guild m) as [g|]; [|reflexivity].
  destruct (String.eqb (id (author m)) (ownerID g)); [|reflexivity].
  simpl. unfold Bot.invoke, try_catch. simpl. unfold Example.send.
  destruct (Bot._parseArgs (content m)) as [|arg1 rest]; [reflexivity|].
  simpl. now rewrite T.
Qed.

Lemma example_guarded_command_example :
  Bot._commandHandler Example.bot (Example.from_member "$specialCommand x") []
  = if owner_wrote (Example.from_member "$specialCommand x")
    then ([] ++ [("The owner : "
                  ++ hd "Nothing"
                       (Bot._parseArgs
                          (content (Example.from_member "$specialCommand x"))))%string],
          Normal tt)
    else ([], Throw Example.PermissionError).
Proof. apply example_guarded_command. reflexivity. Defined.

End ExampleFacts.

(* ================================================================= *)
(** * A dispatch that cannot throw *)

Module BotSafety.
Import Eff Further.

Section Safe.
Context {World : Type}.
Variable b : Bot.t World.
Variable m : Message.

Lemma performChecks_never_throws (cs : list (Check World)) :
  (forall check, In check cs -> never_throws (check m)) ->
  never_throws (Command.performChecks_from cs m).
Proof.
  induction cs as [|check cs IH]; intros H w e; [discriminate|].
  simpl. unfold bind.
  pose proof (H check (or_introl eq_refl) w) as Hc.
  destruct (check m w) as [w1 [[|]|e']]; simpl in *.
  - apply IH. intros c I. apply H. now right.
  - discriminate.
  - exfalso. exact (Hc e' eq_refl).
Qed.

Hypothesis handler_safe : forall e, never_throws (Bot.errorHandler b m e).

Lemma invoke_never_throws (command : Command.t World) (args : list string) :
  never_throws (Bot.invoke b m command args).
Proof.
  intros w e. unfold Bot.invoke, try_catch.
  destruct (Function.call (Command.commandFunction command) m args w)
    as [w1 [[]|e']]; [discriminate|].
  apply handler_safe.
Qed.

Lemma command_loop_never_throws (commands : list (Command.t World))
    (name : string) (args : list string) :
  (forall command check,
     In command commands -> In check (Command.checks command) ->
     never_throws (check m)) ->
  never_throws (Bot.command_loop b m commands name args).
Proof.
  induction commands as [|command rest IH]; intros H w e; [discriminate|].
  simpl. unfold bind at 1.
  assert (D : forall e', snd (Bot.dispatch_to b m command name args w) <> Throw e').
  { intros e'. unfold Bot.dispatch_to, bind.
    destruct (String.eqb (Command.name command) name).
    - assert (P : never_throws (Command.performChecks command m)).
      { apply performChecks_never_throws. intros check I.
        apply (H command check); [now left | exact I]. }
      specialize (P w).
      destruct (Command.performChecks command m w) as [w1 [[|]|e'']]; simpl in *.
      + apply invoke_never_throws.
      + discriminate.
      + exfalso. exact (P e'' eq_refl).
    - simpl. discriminate. }
  destruct (Bot.dispatch_to b m command name args w) as [w1 [[]|e']]; simpl in *.
  - apply IH. intros c check Ic I. apply (H c check); [now right | exact I].
  - exfalso. exact (D e' eq_refl).
Qed.

End Safe.

(** X17. When no global check and no check of a registered command throws
    and the error handler never throws, a dispatch never throws, whatever
    the command functions do: their errors all end in the error handler. *)
Theorem dispatch_never_throws
    (World : Type) (b : Bot.t World) (m : Message) :
  (forall check, In check (Bot.checks b) -> never_throws (check m)) ->
  (forall command check,
     In command (Bot.commands b) -> In check (Command.checks command) ->
     never_throws (check m)) ->
  (forall e, never_throws (Bot.errorHandler b m e)) ->
  never_throws (Bot._commandHandler b m) /\
  never_throws (Bot.on_message b m).
Proof.
  intros Hg Hc Hh.
  assert (D : never_throws (Bot._commandHandler b m)).
  { intros w e. unfold Bot._commandHandler.
    rewrite DispatchFacts.global_checks_as_performChecks. unfold bind.
    pose proof (performChecks_never_throws m (Bot.checks b) Hg w) as P.
    destruct (Command.performChecks_from (Bot.checks b) m w) as [w1 [[|]|e']];
      simpl in *.
    - now apply command_loop_never_throws.
    - discriminate.
    - exfalso. exact (P e' eq_refl). }
  split; [exact D|].
  intros w e. unfold Bot.on_message.
  destruct (negb (bot (author m)) && JS.startsWith (content m) (Bot.prefix b));
    [apply D | discriminate].
Qed.

(** The bot whose first command throws and whose error handler sends the
    message of the error. *)
Lemma dispatch_never_throws_example :
  never_throws (Bot._commandHandler Example.reporting_bot
                  (Example.from_member "$ping")) /\
  never_throws (Bot.on_message Example.reporting_bot
                  (Example.from_member "$ping")).
Proof.
  apply dispatch_never_throws.
  - intros check [].
  - intros command check [<- | [<- | []]] [].
  - intros e w e'. discriminate.
Defined.

End BotSafety.
